(** * Yapping: a shallow embedding of [index.js]

    The program is a text repeater with four modes, a stub integration
    call, a start/stop flag and one HTTP route.  The embedding keeps the
    JavaScript view of the data:

    - a string is a sequence of UTF-16 code units;
    - option fields hold primitive values, with [undefined] for an absent
      property, and go through [ToString], [parseInt], [||] and [===] as
      the source applies them;
    - [Math.random] is a stream of draws threaded through the code that
      consumes it;
    - the process-wide [isRunning] flag is an explicit state component. *)

From Stdlib Require Import ZArith NArith Ascii String List Permutation.
From Stdlib Require DecimalPos DecimalN.
From stdpp Require Import base decidable option list gmap.
Set Warnings "-register-all".
Local Open Scope Z_scope.

(** * The program *)

(** ** Strings and primitive values *)

Module Js.

(** A JavaScript string: its UTF-16 code units. *)
Abbreviation jsstring := (list N).

(** A string literal of the source, one code unit per ASCII character. *)
Definition lit (s : string) : jsstring :=
  map N_of_ascii (list_ascii_of_string s).

(** The values that reach the program: the primitives, and the arrays of
    strings that a repeated query parameter gives.  Numbers are the
    integer-valued ones in the range where [Number::toString] uses plain
    decimal notation. *)
Inductive value :=
  | VUndefined
  | VNull
  | VBool (b : bool)
  | VNum (z : Z)
  | VStr (s : jsstring)
  | VArr (l : list jsstring).

(** [Array.prototype.join]. *)
Fixpoint join (sep : jsstring) (l : list jsstring) : jsstring :=
  match l with
  | [] => []
  | [x] => x
  | x :: r => x ++ sep ++ join sep r
  end.

Fixpoint uint_units (d : Decimal.uint) : jsstring :=
  match d with
  | Decimal.Nil => []
  | Decimal.D0 r => 48%N :: uint_units r
  | Decimal.D1 r => 49%N :: uint_units r
  | Decimal.D2 r => 50%N :: uint_units r
  | Decimal.D3 r => 51%N :: uint_units r
  | Decimal.D4 r => 52%N :: uint_units r
  | Decimal.D5 r => 53%N :: uint_units r
  | Decimal.D6 r => 54%N :: uint_units r
  | Decimal.D7 r => 55%N :: uint_units r
  | Decimal.D8 r => 56%N :: uint_units r
  | Decimal.D9 r => 57%N :: uint_units r
  end.

(** [Number::toString] on an integer. *)
Definition number_to_string (z : Z) : jsstring :=
  if z <? 0 then 45%N :: uint_units (N.to_uint (Z.to_N (- z)))
  else uint_units (N.to_uint (Z.to_N z)).

(** The abstract operation [ToString]. *)
Definition ToString (v : value) : jsstring :=
  match v with
  | VUndefined => lit "undefined"
  | VNull => lit "null"
  | VBool true => lit "true"
  | VBool false => lit "false"
  | VNum z => number_to_string z
  | VStr s => s
  | VArr l => join (lit ",") l
  end.

(** [ToBoolean]: what [||] tests. *)
Definition truthy (v : value) : bool :=
  match v with
  | VUndefined | VNull => false
  | VBool b => b
  | VNum z => negb (z =? 0)
  | VStr s => match s with [] => false | _ => true end
  | VArr _ => true
  end.

(** [a || b]. *)
Definition or_else (a b : value) : value := if truthy a then a else b.

(** [v === s] for a string literal [s]. *)
Definition is_str (v : value) (s : jsstring) : bool :=
  match v with
  | VStr m => bool_decide (m = s)
  | _ => false
  end.

(** A destructuring default: it replaces [undefined] only. *)
Definition default_to (d v : value) : value :=
  match v with
  | VUndefined => d
  | _ => v
  end.

(** White space and line terminators, as [parseInt] strips them. *)
Definition is_white_space (u : N) : bool :=
  bool_decide (u ∈ [9; 10; 11; 12; 13; 32; 160; 5760; 8232; 8233;
                    8239; 8287; 12288; 65279]%N)
  || ((8192 <=? u)%N && (u <=? 8202)%N).

Fixpoint trim_start (s : jsstring) : jsstring :=
  match s with
  | u :: r => if is_white_space u then trim_start r else s
  | [] => []
  end.

Definition is_digit (u : N) : bool := (48 <=? u)%N && (u <=? 57)%N.

(** The value of the longest prefix of decimal digits. *)
Fixpoint parse_digits (s : jsstring) (acc : Z) : Z :=
  match s with
  | u :: r =>
      if is_digit u then parse_digits r (10 * acc + Z.of_N (u - 48))
      else acc
  | [] => acc
  end.

(** [parseInt(v, 10)]; [None] is NaN. *)
Definition parseInt (v : value) : option Z :=
  let s := trim_start (ToString v) in
  let '(sign, s) :=
    match s with
    | 45%N :: r => (-1, r)
    | 43%N :: r => (1, r)
    | _ => (1, s)
    end in
  match s with
  | u :: _ => if is_digit u then Some (sign * parse_digits s 0) else None
  | [] => None
  end.

(** [x || d] for a number [x]: NaN and zero are falsy. *)
Definition num_or (x : option Z) (d : Z) : Z :=
  match x with
  | Some z => if z =? 0 then d else z
  | None => d
  end.

(** [s.split('')]: one string per code unit. *)
Definition split_units (s : jsstring) : list jsstring :=
  map (λ u, [u]) s.

(** The host's case conversions, [String.prototype.toUpperCase] and
    [String.prototype.toLowerCase]. *)
Class CaseMapping := {
  toUpperCase : jsstring → jsstring;
  toLowerCase : jsstring → jsstring
}.

(** The Unicode mappings (UnicodeData and SpecialCasing) of one code unit
    of Basic Latin or Latin-1 Supplement. *)
Definition upper_unit (u : N) : jsstring :=
  if (97 <=? u)%N && (u <=? 122)%N then [u - 32]%N
  else if (u =? 181)%N then [924%N]
  else if (u =? 223)%N then [83; 83]%N
  else if (u =? 247)%N then [u]
  else if (224 <=? u)%N && (u <=? 254)%N then [u - 32]%N
  else if (u =? 255)%N then [376%N]
  else [u].

Definition lower_unit (u : N) : jsstring :=
  if (65 <=? u)%N && (u <=? 90)%N then [u + 32]%N
  else if (u =? 215)%N then [u]
  else if (192 <=? u)%N && (u <=? 222)%N then [u + 32]%N
  else [u].

(** The case conversions on strings of code units up to U+00FF, where
    they act unit by unit.  Code units above U+00FF are outside this
    fragment and are kept as they are. *)
Definition latin1_case : CaseMapping := {|
  toUpperCase s := flat_map upper_unit s;
  toLowerCase s := flat_map lower_unit s
|}.

End Js.
Export Js.

(** ** The random source *)

Module Random.

(** The draws of [Math.random], each recorded as the sign of
    [Math.random() - 0.5]: [Lt] below one half, [Eq] at one half, [Gt]
    above. *)
Definition rng := nat → comparison.

(** A computation that may draw. *)
Definition M (A : Type) := rng → A * rng.

Definition ret {A} (a : A) : M A := λ g, (a, g).

Definition bind {A B} (m : M A) (k : A → M B) : M B :=
  λ g, let '(a, g') := m g in k a g'.

(** One call of the comparator [() => Math.random() - 0.5]. *)
Definition draw : M comparison := λ g, (g O, λ k, g (S k)).

End Random.
Export Random.

Notation "x <- m ;; k" := (bind m (λ x, k))
  (at level 100, m at next level, right associativity).

(** ** The engine's sort *)

Module Sort.

(** [Array.prototype.sort(comparefn)] leaves to the engine the sequence of
    the calls of the comparator and, for a comparator as inconsistent as
    the random one, the order that results; what an engine does is
    rearrange the elements.  A run of the engine on an array is a plan:
    ask the comparator and go on by the sign of its answer, exchange two
    neighbours, or stop.  Every rearrangement is a sequence of such
    exchanges, so every engine has such plans. *)
Inductive plan :=
  | Stop
  | Swap (i : nat) (next : plan)
  | Ask (next : comparison → plan).

(** The elements at [i] and [i + 1] exchanged; nothing where the list has
    no such two. *)
Fixpoint exchange (i : nat) (l : list jsstring) : list jsstring :=
  match i, l with
  | O, x :: y :: r => y :: x :: r
  | S i', x :: r => x :: exchange i' r
  | _, _ => l
  end.

Fixpoint run_plan (p : plan) (l : list jsstring) : M (list jsstring) :=
  match p with
  | Stop => ret l
  | Swap i next => run_plan next (exchange i l)
  | Ask next => c <- draw ;; run_plan (next c) l
  end.

(** The engine: its plan for the arrays of each length.  (The comparator
    ignores its arguments, so the plan need not depend on the elements.) *)
Class HostSort := { sort_plan : nat → plan }.

(** [array.sort(() => Math.random() - 0.5)] *)
Definition array_sort `{HostSort} (l : list jsstring) : M (list jsstring) :=
  run_plan (sort_plan (length l)) l.

(** *** The engine of Node

    V8 sorts an array of fewer than 64 elements in two steps.  It counts
    the run at the start of the array, comparing each element with the one
    before it, and reverses the run when it descends; then it inserts the
    remaining elements one by one, each at the place a binary search
    gives. *)

(** [order < 0] *)
Definition negative (c : comparison) : bool :=
  match c with
  | Lt => true
  | _ => false
  end.

(** The element at [from] moved down to [to], past the elements between. *)
Fixpoint move_down (to from : nat) (next : plan) : plan :=
  match from with
  | O => next
  | S p => if (to <=? p)%nat then Swap p (move_down to p next) else next
  end.

(** The first [r] elements reversed: the elements at 1, 2, ... moved to
    the front in turn. *)
Fixpoint reverse_from (j count : nat) (next : plan) : plan :=
  match count with
  | O => next
  | S c => move_down 0 j (reverse_from (S j) c next)
  end.

Definition reverse_prefix (r : nat) (next : plan) : plan :=
  reverse_from 1 (r - 1) next.

(** The loop of [CountAndMakeRun]: the run goes on while the comparison
    of an element with the one before it keeps the direction. *)
Fixpoint scan_run (descending : bool) (remaining run : nat)
    (next : nat → plan) : plan :=
  match remaining with
  | O => next run
  | S r =>
      Ask (λ c, if Bool.eqb (negative c) descending
                then scan_run descending r (S run) next
                else next run)
  end.

(** The binary search of [BinaryInsertionSort] between [left] and [right]:
    the pivot is compared with the element in the middle. *)
Fixpoint search (fuel left right : nat) (next : nat → plan) : plan :=
  match fuel with
  | O => next left
  | S fuel' =>
      if (left <? right)%nat then
        let mid := (left + (right - left) / 2)%nat in
        Ask (λ c, if negative c then search fuel' left mid next
                  else search fuel' (S mid) right next)
      else next left
  end.

(** The elements from [start] on inserted in turn. *)
Fixpoint insert_rest (start count : nat) : plan :=
  match count with
  | O => Stop
  | S c =>
      search (S start) 0 start
        (λ left, move_down left start (insert_rest (S start) c))
  end.

Definition v8_plan (n : nat) : plan :=
  if (n <? 2)%nat then Stop
  else
    Ask (λ c,
      let descending := negative c in
      scan_run descending (n - 2) 2
        (λ run,
           let rest := insert_rest run (n - run) in
           if descending then reverse_prefix run rest else rest)).

(** V8 on arrays of fewer than 64 elements.  From 64 elements on V8
    merges several runs; those arrays are outside this fragment. *)
Definition v8_sort : HostSort := {| sort_plan := v8_plan |}.

End Sort.
Export Sort.

(** ** The transform *)

Definition PACKAGE_MAX_REPEAT : Z := 200.

(** [Math.max(1, Math.min(PACKAGE_MAX_REPEAT, parseInt(n, 10) || d))],
    the expression of [yap] (with [d = 3]) and of the request handler
    (with [d = 1]). *)
Definition safeN (n : value) (d : Z) : Z :=
  Z.max 1 (Z.min PACKAGE_MAX_REPEAT (num_or (parseInt n) d)).

(** The options object of [yap]; an absent property is [VUndefined]. *)
Record options := {
  n : value;
  sep : value;
  mode : value;
  prefix : value;
  suffix : value
}.

(** [{}] *)
Definition no_options : options :=
  {| n := VUndefined; sep := VUndefined; mode := VUndefined;
     prefix := VUndefined; suffix := VUndefined |}.

(** The destructuring of [opts], with its defaults. *)
Definition destructure (opts : options) : options :=
  {| n := default_to (VNum 3) (n opts);
     sep := default_to (VStr (lit " ")) (sep opts);
     mode := default_to (VStr (lit "echo")) (mode opts);
     prefix := default_to (VStr []) (prefix opts);
     suffix := default_to (VStr []) (suffix opts) |}.

(** [String(text)], with the default of the parameter. *)
Definition text_string (text : value) : jsstring :=
  ToString (default_to (VStr []) text).

Section Transform.

Context `{CaseMapping} `{HostSort}.

Definition altCase (s : jsstring) (i : nat) : jsstring :=
  join []
    (imap (λ idx ch,
             if (idx mod 2 =? i mod 2)%nat then toUpperCase ch
             else toLowerCase ch)
          (split_units s)).

(** The trailing marker of mode [funny]. *)
Definition marker (i : nat) : jsstring :=
  if (i mod 2 =? 0)%nat then lit "!" else lit "...".

(** The [switch (mode)] of the loop body, on the text [t] of repetition
    [i]. *)
Definition transform (mode : value) (t : jsstring) (i : nat) : M jsstring :=
  if is_str mode (lit "caps") then ret (toUpperCase t)
  else if is_str mode (lit "shuffle") then
    l <- array_sort (split_units t) ;; ret (join [] l)
  else if is_str mode (lit "funny") then ret (altCase t i ++ marker i)
  else ret t.

(** The [for] loop, from index [i] on; [fuel] bounds the iterations. *)
Fixpoint yap_loop (fuel : nat) (count : Z) (text : jsstring)
    (mode : value) (prefix suffix : jsstring)
    (i : nat) (pieces : list jsstring) : M (list jsstring) :=
  match fuel with
  | O => ret pieces
  | S fuel' =>
      if Z.of_nat i <? count then
        t <- transform mode text i ;;
        yap_loop fuel' count text mode prefix suffix (S i)
                 (pieces ++ [prefix ++ t ++ suffix])
      else ret pieces
  end.

(** [yap(text, opts)].  The count is at most [PACKAGE_MAX_REPEAT], which
    therefore is fuel enough. *)
Definition yap (text : value) (opts : options) : M jsstring :=
  let o := destructure opts in
  let count := safeN (n o) 3 in
  pieces <- yap_loop (Z.to_nat PACKAGE_MAX_REPEAT) count
              (text_string text) (mode o)
              (ToString (prefix o)) (ToString (suffix o)) O [] ;;
  ret (join (ToString (sep o)) pieces).

End Transform.

Definition all_lt : rng := λ _, Lt.
Definition all_gt : rng := λ _, Gt.
Definition all_eq : rng := λ _, Eq.

(** The draws of a list, and [Eq] after them. *)
Definition draws (l : list comparison) : rng := λ k, nth k l Eq.

(** ** Objects and asynchronous results *)

Module Obj.

(** The values of the result objects and of the JSON bodies.  An object
    keeps its properties in insertion order. *)
Inductive json :=
  | JNull
  | JBool (b : bool)
  | JNum (z : Z)
  | JStr (s : jsstring)
  | JObj (fields : list (jsstring * json)).

Definition object := list (jsstring * json).

(** Property read: the first (and only) binding of the key. *)
Fixpoint get (k : jsstring) (o : object) : option json :=
  match o with
  | [] => None
  | (k', v) :: r => if decide (k = k') then Some v else get k r
  end.

(** Property write: in place when the key exists, appended otherwise. *)
Fixpoint set (k : jsstring) (v : json) (o : object) : object :=
  match o with
  | [] => [(k, v)]
  | (k', v') :: r =>
      if decide (k = k') then (k, v) :: r else (k', v') :: set k v r
  end.

(** [{...target, ...src}], continuing from the properties already in
    [target].  (JavaScript lists integer-like keys first; here every key
    is in insertion order, which no property read depends on.) *)
Definition spread (target src : object) : object :=
  fold_left (λ acc kv, set kv.1 kv.2 acc) src target.

(** How an [async] function settles. *)
Inductive outcome (A : Type) :=
  | Fulfilled (a : A)
  | Rejected (e : value).
Arguments Fulfilled {A} a.
Arguments Rejected {A} e.

End Obj.
Export Obj.

(** ** The integration stub *)

(** [integrateWithService(transformedText, config)]: after the simulated
    delay it returns the same literal for every argument. *)
Definition integrateWithService (transformedText : jsstring)
    (config : object) : outcome json :=
  Fulfilled
    (JObj [(lit "ok", JBool true);
           (lit "info",
            JStr (lit "simulated-send (fill integrateWithService with real code)"))]).

(** The object the stub returns. *)
Definition simulated_send : json :=
  JObj [(lit "ok", JBool true);
        (lit "info",
         JStr (lit "simulated-send (fill integrateWithService with real code)"))].

(** ** The lifecycle flag *)

Section Bot.

(** The configuration read from [account.json] at load time ([{}] when the
    file is missing or malformed). *)
Variable defaultAccount : object.

(** [startBot(opts)] on the flag [isRunning]: the result and the new flag.
    The heartbeat it launches only reads the flag. *)
Definition startBot (opts : object) (isRunning : bool)
  : outcome json * bool :=
  if isRunning then
    (Fulfilled (JObj [(lit "ok", JBool false);
                      (lit "error", JStr (lit "bot already running"))]),
     isRunning)
  else
    (Fulfilled (JObj [(lit "ok", JBool true);
                      (lit "info", JStr (lit "bot started"));
                      (lit "config",
                       JObj (spread (spread [] defaultAccount) opts))]),
     true).

(** [stopBot()]. *)
Definition stopBot (isRunning : bool) : outcome json * bool :=
  if negb isRunning then
    (Fulfilled (JObj [(lit "ok", JBool false);
                      (lit "error", JStr (lit "bot not running"))]),
     isRunning)
  else
    (Fulfilled (JObj [(lit "ok", JBool true);
                      (lit "info", JStr (lit "bot stopped"))]),
     false).

End Bot.

(** ** The HTTP route *)

(** The value of a query parameter: its string, or, for a parameter that
    the query repeats, the array of its strings. *)
Inductive qvalue :=
  | QOne (s : jsstring)
  | QMany (a b : jsstring) (rest : list jsstring).

(** What [url.parse(req.url, true)] returns: the path ([null] when the URL
    has none) and the query. *)
Record url := {
  pathname : value;
  query : gmap jsstring qvalue
}.

(** A request, by what [url.parse] makes of its URL: the parsed URL, or
    the error that [url.parse] throws (a [URIError] for an auth part that
    cannot be decoded, as in [http://%@h/]), here by its message. *)
Inductive request :=
  | Parsed (u : url)
  | Unparsable (e : value).

Record response := {
  status : Z;
  headers : list (jsstring * jsstring);
  body : json
}.

(** [q.k]: [undefined] when the parameter is absent. *)
Definition param (q : gmap jsstring qvalue) (k : string) : value :=
  match q !! lit k with
  | Some (QOne s) => VStr s
  | Some (QMany a b rest) => VArr (a :: b :: rest)
  | None => VUndefined
  end.

Definition json_headers : list (jsstring * jsstring) :=
  [(lit "Content-Type", lit "application/json; charset=utf-8")].

(** The options the handler builds from the query. *)
Definition request_options (q : gmap jsstring qvalue) : options :=
  let n := or_else (or_else (param q "n") (param q "count")) (VNum 1) in
  {| n := VNum (safeN n 1);
     sep := or_else (param q "sep") (VStr (lit " "));
     mode := or_else (param q "mode") (VStr (lit "echo"));
     prefix := or_else (param q "prefix") (VStr []);
     suffix := or_else (param q "suffix") (VStr []) |}.

Definition request_text (q : gmap jsstring qvalue) : value :=
  or_else (or_else (param q "msg") (param q "message")) (VStr []).

Section Server.

Context `{CaseMapping} `{HostSort}.
Variable defaultAccount : object.

(** The request listener of [startServer]: the response it writes, or the
    rejection that escapes it, with no response written.  Nothing in the
    listener catches what [url.parse] throws. *)
Definition handle (req : request) : M (outcome response) :=
  match req with
  | Unparsable e => ret (Rejected e)
  | Parsed u =>
      if is_str (pathname u) (lit "/") || is_str (pathname u) (lit "/yap")
      then
        let q := query u in
        resultText <- yap (request_text q) (request_options q) ;;
        match integrateWithService resultText defaultAccount with
        | Fulfilled sendRes =>
            ret (Fulfilled
                   {| status := 200;
                      headers := json_headers;
                      body := JObj [(lit "ok", JBool true);
                                    (lit "payload", JStr resultText);
                                    (lit "sendRes", sendRes)] |})
        | Rejected e => ret (Rejected e)
        end
      else
        ret (Fulfilled
               {| status := 404;
                  headers := json_headers;
                  body := JObj [(lit "ok", JBool false);
                                (lit "error", JStr (lit "not found"))] |})
  end.

End Server.

(** ** The command line *)

Definition starts_with (p s : jsstring) : bool :=
  bool_decide (take (length p) s = p).

(** [next && !next.startsWith('-')] *)
Definition is_flag_value (next : jsstring) : bool :=
  truthy (VStr next) && negb (starts_with (lit "-") next).

(** The argument loop: [--key value], [-k value], bare flags and
    positionals. *)
Fixpoint parse_args (args : list jsstring) (flags : gmap jsstring value)
    (positionals : list jsstring)
  : gmap jsstring value * list jsstring :=
  match args with
  | [] => (flags, positionals)
  | a :: rest =>
      let set_flag (key : jsstring) :=
        match rest with
        | next :: rest' =>
            if is_flag_value next
            then parse_args rest' (<[key := VStr next]> flags) positionals
            else parse_args rest (<[key := VBool true]> flags) positionals
        | [] => parse_args rest (<[key := VBool true]> flags) positionals
        end in
      if starts_with (lit "--") a then set_flag (drop 2 a)
      else if starts_with (lit "-") a then set_flag (drop 1 a)
      else parse_args rest flags (positionals ++ [a])
  end.

(** [flags.k] *)
Definition flag (flags : gmap jsstring value) (k : string) : value :=
  default VUndefined (flags !! lit k).

(** The options of the one-shot run. *)
Definition cli_options (flags : gmap jsstring value) : options :=
  {| n := or_else (or_else (or_else (flag flags "n") (flag flags "N"))
                     (flag flags "count")) (VNum 1);
     sep := or_else (or_else (flag flags "sep") (flag flags "s"))
              (VStr (lit " "));
     mode := or_else (flag flags "mode") (VStr (lit "echo"));
     prefix := or_else (flag flags "prefix") (VStr []);
     suffix := or_else (flag flags "suffix") (VStr []) |}.

Section Cli.

Context `{CaseMapping} `{HostSort}.

(** The one-shot run on [process.argv.slice(2)]: the line it prints, or
    [None] when the server flag sends it to [startServer] instead. *)
Definition cli (args : list jsstring) : M (option jsstring) :=
  let '(flags, positionals) := parse_args args ∅ [] in
  if truthy (or_else (flag flags "server") (flag flags "s")) then ret None
  else
    let text :=
      match positionals with
      | [] => or_else (or_else (flag flags "msg") (flag flags "m")) (VStr [])
      | _ => VStr (join (lit " ") positionals)
      end in
    result <- yap text (cli_options flags) ;;
    ret (Some result).

End Cli.

(** ** The spec's description of mode funny *)

Section Casing.

Context `{CaseMapping} `{HostSort}.

(** The text with the unit at each position converted by the parities of
    the position and of the repetition. *)
Definition alternate (s : jsstring) (i : nat) : list jsstring :=
  imap (λ idx u,
          if (idx mod 2 =? i mod 2)%nat then toUpperCase [u]
          else toLowerCase [u]) s.

(** Every unit of [s] converts, either way, to a single unit. *)
Definition unit_preserving (s : jsstring) : Prop :=
  ∀ u, u ∈ s →
    length (toUpperCase [u]) = 1%nat ∧ length (toLowerCase [u]) = 1%nat.

(** The text of repetition [i] as the modes are described: upper-cased
    as a whole for caps; for shuffle what the engine's sort makes, for
    some draws, of the units of the text, hence a rearrangement of them;
    cased unit by unit and marked for funny; the text itself otherwise. *)
Definition mode_text (m : value) (s : jsstring) (i : nat) (t : jsstring)
  : Prop :=
  (m = VStr (lit "caps") ∧ t = toUpperCase s)
  ∨ (m = VStr (lit "shuffle")
     ∧ t ≡ₚ s
     ∧ ∃ g, t = concat (fst (array_sort (map (λ u, [u]) s) g)))
  ∨ (m = VStr (lit "funny")
     ∧ t = concat (alternate s i)
           ++ (if Nat.even i then lit "!" else lit "..."))
  ∨ (m ≠ VStr (lit "caps") ∧ m ≠ VStr (lit "shuffle")
     ∧ m ≠ VStr (lit "funny") ∧ t = s).

End Casing.

(** The characters (code points) of a string: a high surrogate followed
    by a low one is one character, any other unit is a character of its
    own. *)
Definition is_high (u : N) : bool := (55296 <=? u)%N && (u <=? 56319)%N.

Definition is_low (u : N) : bool := (56320 <=? u)%N && (u <=? 57343)%N.

Fixpoint code_points (s : jsstring) : list N :=
  match s with
  | [] => []
  | u :: r =>
      match r with
      | v :: r' =>
          if is_high u && is_low v
          then (65536 + (u - 55296) * 1024 + (v - 56320))%N :: code_points r'
          else u :: code_points r
      | [] => [u]
      end
  end.

(** U+1F600, one character of two units. *)
Definition grinning_face : jsstring := [55357; 56832]%N.

(** Two values that [||] cannot tell apart: equal, or both falsy. *)
Definition alike (a b : value) : Prop :=
  a = b ∨ (truthy a = false ∧ truthy b = false).

(** ** Runs of the lifecycle *)

Module Lifecycle.

(** The two operations, and runs of them from a given flag. *)
Inductive op :=
  | Start (opts : object)
  | Stop.

Definition step (acct : object) (o : op) (isRunning : bool)
  : outcome json * bool :=
  match o with
  | Start opts => startBot acct opts isRunning
  | Stop => stopBot isRunning
  end.

Fixpoint run (acct : object) (ops : list op) (isRunning : bool)
  : list (outcome json) * bool :=
  match ops with
  | [] => ([], isRunning)
  | o :: r =>
      let '(res, s) := step acct o isRunning in
      let '(rest, s') := run acct r s in
      (res :: rest, s')
  end.

Definition failure (msg : string) : outcome json :=
  Fulfilled (JObj [(lit "ok", JBool false); (lit "error", JStr (lit msg))]).

Definition started (config : object) : outcome json :=
  Fulfilled (JObj [(lit "ok", JBool true);
                   (lit "info", JStr (lit "bot started"));
                   (lit "config", JObj config)]).

Definition stopped : outcome json :=
  Fulfilled (JObj [(lit "ok", JBool true);
                   (lit "info", JStr (lit "bot stopped"))]).

End Lifecycle.
Export Lifecycle.

(** ** Responses, requests and options used below *)


Definition success (payload : jsstring) (sendRes : json) : response :=
  {| status := 200;
     headers := json_headers;
     body := JObj [(lit "ok", JBool true);
                   (lit "payload", JStr payload);
                   (lit "sendRes", sendRes)] |}.

(** [GET /yap?msg=hi&n=2&mode=caps] *)
Definition hi_twice_caps_url : url :=
  {| pathname := VStr (lit "/yap");
     query := {[ lit "msg" := QOne (lit "hi"); lit "n" := QOne (lit "2");
                 lit "mode" := QOne (lit "caps") ]} |}.

Definition hi_twice_caps : request := Parsed hi_twice_caps_url.

(** [GET /?msg=a&n=abc] *)
Definition many_a_url : url :=
  {| pathname := VStr (lit "/");
     query := {[ lit "msg" := QOne (lit "a"); lit "n" := QOne (lit "abc") ]} |}.



(** [GET /yap?msg=hi&n=&count=5] *)
Definition empty_n_count_five : gmap jsstring qvalue :=
  {[ lit "msg" := QOne (lit "hi"); lit "n" := QOne [];
     lit "count" := QOne (lit "5") ]}.

(** [GET /yap?msg=a&sep=&sep=] *)
Definition sep_twice : gmap jsstring qvalue :=
  {[ lit "msg" := QOne (lit "a"); lit "sep" := QMany [] [] [] ]}.

Definition caps_twice : options :=
  {| n := VNum 2; sep := VStr (lit "-"); mode := VStr (lit "caps");
     prefix := VUndefined; suffix := VUndefined |}.

Definition shuffle_once : options :=
  {| n := VNum 1; sep := VUndefined; mode := VStr (lit "shuffle");
     prefix := VUndefined; suffix := VUndefined |}.

Definition funny_twice : options :=
  {| n := VNum 2; sep := VUndefined; mode := VStr (lit "funny");
     prefix := VUndefined; suffix := VUndefined |}.

Definition count_zero : options :=
  {| n := VNum 0; sep := VUndefined; mode := VUndefined;
     prefix := VUndefined; suffix := VUndefined |}.

(** [GET /yap?msg=hi&sep=&mode=&n=] *)
Definition empty_parameters : gmap jsstring qvalue :=
  {[ lit "msg" := QOne (lit "hi"); lit "sep" := QOne [];
     lit "mode" := QOne []; lit "n" := QOne [] ]}.

(** [GET /yap?msg=hi&n=0] *)
Definition zero_parameter : gmap jsstring qvalue :=
  {[ lit "msg" := QOne (lit "hi"); lit "n" := QOne (lit "0") ]}.

(** ** Notions used by the further properties *)

(** [opts] with another mode. *)
Definition with_mode (m : value) (opts : options) : options :=
  {| n := n opts; sep := sep opts; mode := m;
     prefix := prefix opts; suffix := suffix opts |}.

(** [opts] with another count. *)
Definition with_count (c : value) (opts : options) : options :=
  {| n := c; sep := sep opts; mode := mode opts;
     prefix := prefix opts; suffix := suffix opts |}.

(** The key an argument with a leading dash sets. *)
Definition flag_key (a : jsstring) : jsstring :=
  if starts_with (lit "--") a then drop 2 a else drop 1 a.

(** What the argument loop stores under a key: [true], or a non-empty
    string without a leading dash. *)
Definition stored (v : value) : Prop :=
  v = VBool true
  ∨ ∃ s, v = VStr s ∧ s ≠ [] ∧ starts_with (lit "-") s = false.

(** The keys of an object. *)
Definition keys (o : object) : list jsstring := map fst o.

(** Whether a settled result reports [ok: true]. *)
Definition succeeded (r : outcome json) : bool :=
  match r with
  | Fulfilled (JObj fields) =>
      match get (lit "ok") fields with
      | Some (JBool true) => true
      | _ => false
      end
  | _ => false
  end.

(** The successful starts of a run minus its successful stops. *)
Fixpoint tally (ops : list op) (results : list (outcome json)) : Z :=
  match ops, results with
  | o :: ops', r :: results' =>
      (if succeeded r
       then match o with Start _ => 1 | Stop => -1 end
       else 0) + tally ops' results'
  | _, _ => 0
  end.

(** Options with a mode that is no string, and with mode funny and the
    default count. *)
Definition odd_mode : options :=
  {| n := VNum 2; sep := VUndefined; mode := VBool true;
     prefix := VStr (lit "<"); suffix := VUndefined |}.

Definition funny_default : options :=
  with_mode (VStr (lit "funny")) no_options.

(** A small account configuration and the options of a call. *)
Definition sample_account : object :=
  [(lit "name", JStr (lit "bot")); (lit "rate", JNum 5)].

Definition sample_opts : object := [(lit "rate", JNum 9)].

(** The clamp of the count. *)
Definition clamp (z : Z) : Z := Z.max 1 (Z.min PACKAGE_MAX_REPEAT z).

(** * Properties *)

(** ** Evaluations *)

Example parseInt_2 : parseInt (VStr (lit "2")) = Some 2.
Proof. reflexivity. Qed.
Example parseInt_neg : parseInt (VStr (lit "  -15px")) = Some (-15).
Proof. reflexivity. Qed.
Example parseInt_nan : parseInt (VStr (lit "abc")) = None.
Proof. reflexivity. Qed.
Example parseInt_true : parseInt (VBool true) = None.
Proof. reflexivity. Qed.
Example parseInt_num : parseInt (VNum 137) = Some 137.
Proof. reflexivity. Qed.
Example upper_hi : @toUpperCase latin1_case (lit "hi") = lit "HI".
Proof. reflexivity. Qed.
Example upper_sharp_s : @toUpperCase latin1_case [223%N] = lit "SS".
Proof. reflexivity. Qed.

Section TransformExamples.

#[local] Existing Instance latin1_case.
#[local] Existing Instance v8_sort.

Example yap_caps :
  fst (yap (VStr (lit "hi"))
         {| n := VNum 2; sep := VStr (lit "-"); mode := VStr (lit "caps");
            prefix := VUndefined; suffix := VUndefined |} all_lt)
  = lit "HI-HI".
Proof. vm_compute. reflexivity. Qed.

Example yap_echo :
  fst (yap (VStr (lit "x"))
         {| n := VNum 1; sep := VUndefined; mode := VUndefined;
            prefix := VStr (lit "["); suffix := VStr (lit "]") |} all_lt)
  = lit "[x]".
Proof. vm_compute. reflexivity. Qed.

Example yap_defaults :
  fst (yap (VStr (lit "a")) no_options all_lt) = lit "a a a".
Proof. vm_compute. reflexivity. Qed.

Example yap_funny :
  fst (yap (VStr (lit "abcd")) {| n := VUndefined; sep := VUndefined;
        mode := VStr (lit "funny"); prefix := VUndefined;
        suffix := VUndefined |} all_lt)
  = lit "AbCd! aBcD... AbCd!".
Proof. vm_compute. reflexivity. Qed.

Example yap_shuffle_gt :
  fst (yap (VStr (lit "abc")) {| n := VNum 1; sep := VUndefined;
        mode := VStr (lit "shuffle"); prefix := VUndefined;
        suffix := VUndefined |} all_gt)
  = lit "abc".
Proof. vm_compute. reflexivity. Qed.

Example yap_shuffle_eq :
  fst (yap (VStr (lit "abc")) {| n := VNum 1; sep := VUndefined;
        mode := VStr (lit "shuffle"); prefix := VUndefined;
        suffix := VUndefined |} all_eq)
  = lit "abc".
Proof. vm_compute. reflexivity. Qed.

(** A descending run of two, reversed, and the third unit inserted in
    front after two more comparisons: four calls of the comparator. *)
Example yap_shuffle_four_calls :
  let r := yap (VStr (lit "abc")) {| n := VNum 1; sep := VUndefined;
             mode := VStr (lit "shuffle"); prefix := VUndefined;
             suffix := VUndefined |} (draws [Lt; Gt; Lt; Lt; Gt]) in
  fst r = lit "cba" ∧ snd r O = Gt ∧ snd r 1%nat = Eq.
Proof. vm_compute. repeat split. Qed.

Example yap_shuffle_lt :
  fst (yap (VStr (lit "abc")) {| n := VNum 1; sep := VUndefined;
        mode := VStr (lit "shuffle"); prefix := VUndefined;
        suffix := VUndefined |} all_lt)
  = lit "cba".
Proof. vm_compute. reflexivity. Qed.

End TransformExamples.

Section CliExamples.

#[local] Existing Instance latin1_case.
#[local] Existing Instance v8_sort.

Example cli_plain :
  fst (cli [lit "hello"; lit "there"] all_lt) = Some (lit "hello there").
Proof. vm_compute. reflexivity. Qed.

Example cli_count_caps :
  fst (cli [lit "hi"; lit "-n"; lit "2"; lit "--mode"; lit "caps"] all_lt)
  = Some (lit "HI HI").
Proof. vm_compute. reflexivity. Qed.

End CliExamples.

(** ** The repeat count *)

Lemma safeN_range (v : value) (d : Z) : 1 ≤ safeN v d ≤ PACKAGE_MAX_REPEAT.
Proof. unfold safeN, PACKAGE_MAX_REPEAT. lia. Qed.

(** A count that parses to a non-zero number is clamped to the nearer
    bound. *)
Lemma safeN_clamps (v : value) (d z : Z) :
  parseInt v = Some z → z ≠ 0 →
  safeN v d = (if z <? 1 then 1 else if 200 <? z then 200 else z).
Proof.
  intros Hp Hz. unfold safeN, PACKAGE_MAX_REPEAT, num_or. rewrite Hp.
  destruct (Z.eqb_spec z 0) as [->|_]; [done|].
  destruct (Z.ltb_spec z 1), (Z.ltb_spec 200 z); lia.
Qed.

(** A count that does not parse takes the default of the call site. *)
Lemma safeN_default (v : value) (d : Z) :
  parseInt v = None → 1 ≤ d ≤ 200 → safeN v d = d.
Proof.
  intros Hp Hd. unfold safeN, PACKAGE_MAX_REPEAT, num_or. rewrite Hp. lia.
Qed.

(** A count that parses to zero takes the default too. *)
Lemma safeN_zero (v : value) (d : Z) :
  parseInt v = Some 0 → 1 ≤ d ≤ 200 → safeN v d = d.
Proof.
  intros Hp Hd. unfold safeN, PACKAGE_MAX_REPEAT, num_or. rewrite Hp.
  simpl. lia.
Qed.

(** Printing a count in range and parsing it back gives the count. *)
Lemma parseInt_count (z : Z) : 1 ≤ z ≤ 200 → parseInt (VNum z) = Some z.
Proof.
  intros Hz.
  assert (Hall : forallb (λ k, bool_decide
                   (parseInt (VNum (Z.of_nat k)) = Some (Z.of_nat k)))
                   (seq 1 200) = true) by (vm_compute; reflexivity).
  rewrite forallb_forall in Hall.
  specialize (Hall (Z.to_nat z)). rewrite Z2Nat.id in Hall by lia.
  eapply bool_decide_eq_true_1, Hall, in_seq. lia.
Qed.

Lemma safeN_count (z d : Z) : 1 ≤ z ≤ 200 → safeN (VNum z) d = z.
Proof.
  intros Hz. rewrite (safeN_clamps _ _ z) by (auto using parseInt_count; lia).
  destruct (Z.ltb_spec z 1), (Z.ltb_spec 200 z); lia.
Qed.

Lemma safeN_idem (v : value) (d d' : Z) :
  safeN (VNum (safeN v d)) d' = safeN v d.
Proof. apply safeN_count, safeN_range. Qed.

(** ** Rearrangements and casing *)

Section Rearrangements.

Context `{CaseMapping} `{HostSort}.

Lemma exchange_perm (i : nat) (l : list jsstring) : exchange i l ≡ₚ l.
Proof.
  revert l. induction i as [|i IH]; intros [|x r]; simpl; try done.
  - destruct r as [|y r]; [done|apply perm_swap].
  - by rewrite IH.
Qed.

(** Whatever the plan and the draws, the engine returns the elements it
    was given, each as often. *)
Lemma run_plan_perm (p : plan) :
  ∀ (l : list jsstring) (g : rng), fst (run_plan p l g) ≡ₚ l.
Proof.
  induction p as [|i next IH|next IH]; intros l g; simpl.
  - done.
  - by rewrite IH, exchange_perm.
  - unfold bind, draw. apply IH.
Qed.

Lemma join_empty (l : list jsstring) : join [] l = concat l.
Proof.
  induction l as [|x [|y r] IH]; simpl in *; [done| |by rewrite IH].
  by rewrite app_nil_r.
Qed.

Lemma concat_perm (l1 l2 : list jsstring) :
  l1 ≡ₚ l2 → concat l1 ≡ₚ concat l2.
Proof.
  induction 1 as [|x l l' _ IH|x y l|l l' l'' _ IH1 _ IH2]; simpl.
  - done.
  - by rewrite IH.
  - rewrite !app_assoc. by rewrite (Permutation_app_comm y x).
  - by rewrite IH1.
Qed.

Lemma concat_split_units (s : jsstring) : concat (split_units s) = s.
Proof. induction s as [|u r IH]; simpl; [done|]. by rewrite IH. Qed.

(** The shuffled text has the code units of the text, each as often. *)
Lemma transform_shuffle_perm (t : jsstring) (i : nat) (g : rng) :
  fst (transform (VStr (lit "shuffle")) t i g) ≡ₚ t.
Proof.
  unfold transform. simpl. unfold bind, array_sort.
  pose proof (run_plan_perm (sort_plan (length (split_units t)))
                (split_units t) g) as Hs.
  destruct (run_plan _ _ g) as [l g']. simpl in *.
  rewrite join_empty, (concat_perm _ _ Hs).
  by rewrite concat_split_units.
Qed.

Lemma imap_split_units (f : nat → jsstring → jsstring) (s : jsstring) :
  imap f (split_units s) = imap (λ idx u, f idx [u]) s.
Proof.
  revert f. induction s as [|u r IH]; intros f; [done|].
  simpl. f_equal. apply (IH (f ∘ S)).
Qed.

Lemma altCase_alternate (s : jsstring) (i : nat) :
  altCase s i = concat (alternate s i).
Proof.
  unfold altCase, alternate. by rewrite join_empty, imap_split_units.
Qed.

Lemma marker_parity (i : nat) :
  marker i = if Nat.even i then lit "!" else lit "...".
Proof.
  unfold marker. rewrite <- Nat.bit0_mod, Nat.bit0_odd, <- Nat.negb_even.
  by destruct (Nat.even i).
Qed.

End Rearrangements.

(** ** The pieces of the output *)

Section TransformFacts.

Context `{CaseMapping} `{HostSort}.

(** The loop appends one wrapped piece per index from [i] up to the
    count, provided the fuel covers them. *)
Lemma yap_loop_pieces (fuel : nat) (count : Z) (text : jsstring)
    (m : value) (p s : jsstring) :
  ∀ (i : nat) (pieces : list jsstring) (g : rng),
    count - Z.of_nat i ≤ Z.of_nat fuel →
    ∃ ps : list jsstring,
      fst (yap_loop fuel count text m p s i pieces g) = pieces ++ ps
      ∧ length ps = Z.to_nat (count - Z.of_nat i)
      ∧ ∀ (j : nat) (piece : jsstring), ps !! j = Some piece →
          ∃ gj, piece = p ++ fst (transform m text (i + j) gj) ++ s.
Proof.
  induction fuel as [|fuel IH]; intros i pieces g Hfuel.
  - exists []. simpl. rewrite app_nil_r.
    repeat split; [lia | intros j piece Hj; discriminate Hj].
  - simpl. destruct (Z.ltb_spec (Z.of_nat i) count) as [Hlt|Hge].
    + unfold bind at 1.
      destruct (transform m text i g) as [t g'] eqn:Ht.
      destruct (IH (S i) (pieces ++ [p ++ t ++ s]) g')
        as (ps & Hps & Hlen & Hall); [lia|].
      exists ((p ++ t ++ s) :: ps). rewrite Hps, <- app_assoc.
      repeat split; [simpl; lia|].
      intros [|j] piece Hj; simpl in Hj.
      * injection Hj as <-. exists g. by rewrite Nat.add_0_r, Ht.
      * destruct (Hall j piece Hj) as [gj ->]. exists gj.
        by replace (i + S j)%nat with (S i + j)%nat by lia.
    + exists []. simpl. rewrite app_nil_r.
      repeat split; [lia | intros j piece Hj; discriminate Hj].
Qed.

(** The output is the join of the pieces the loop collects from index 0. *)
Lemma yap_output (text : value) (opts : options) (g : rng) :
  ∃ ps : list jsstring,
    fst (yap text opts g) = join (ToString (sep (destructure opts))) ps
    ∧ Z.of_nat (length ps) = safeN (n (destructure opts)) 3
    ∧ ∀ (i : nat) (piece : jsstring), ps !! i = Some piece →
        ∃ gi, piece = ToString (prefix (destructure opts))
                      ++ fst (transform (mode (destructure opts))
                                (text_string text) i gi)
                      ++ ToString (suffix (destructure opts)).
Proof.
  set (o := destructure opts). set (count := safeN (n o) 3).
  assert (Hcount : 1 ≤ count ≤ 200) by apply safeN_range.
  unfold yap. fold o. fold count. unfold bind.
  destruct (yap_loop_pieces (Z.to_nat PACKAGE_MAX_REPEAT) count
              (text_string text) (mode o) (ToString (prefix o))
              (ToString (suffix o)) O [] g) as (ps & Hps & Hlen & Hall).
  { unfold PACKAGE_MAX_REPEAT. lia. }
  destruct (yap_loop _ _ _ _ _ _ _ _ g) as [pieces g'].
  simpl in Hps. subst pieces. exists ps. simpl.
  repeat split; [lia | exact Hall].
Qed.

Lemma transform_mode_text (m : value) (s : jsstring) (i : nat) (g : rng) :
  mode_text m s i (fst (transform m s i g)).
Proof.
  unfold mode_text.
  destruct (is_str m (lit "caps")) eqn:Hc.
  { left. destruct m; try discriminate Hc.
    simpl in Hc. apply bool_decide_eq_true_1 in Hc as ->. done. }
  destruct (is_str m (lit "shuffle")) eqn:Hs.
  { right. left. destruct m; try discriminate Hs.
    simpl in Hs. apply bool_decide_eq_true_1 in Hs as ->.
    split; [done|]. split; [apply transform_shuffle_perm|].
    exists g. unfold transform. simpl. unfold bind.
    change (map (λ u : N, [u]) s) with (split_units s).
    destruct (array_sort (split_units s) g) as [l g']. simpl.
    apply join_empty. }
  destruct (is_str m (lit "funny")) eqn:Hf.
  { right. right. left. destruct m; try discriminate Hf.
    simpl in Hf. apply bool_decide_eq_true_1 in Hf as ->.
    split; [done|]. unfold transform. simpl.
    by rewrite altCase_alternate, marker_parity. }
  right. right. right. unfold transform. rewrite Hc, Hs, Hf. simpl.
  repeat split; try done; intros ->; vm_compute in Hc, Hs, Hf; congruence.
Qed.

(** C1: the output of [yap] is the join, by the separator, of exactly as
    many pieces as the clamped count, a number from 1 to 200 that is the
    requested count whenever that is such a number; and each piece is the
    prefix, the text transformed by the mode for its repetition, and the
    suffix.  The text, the prefix, the suffix and the separator are the
    strings given, or the defaults (empty, empty, empty, one space) for
    those not given, and the mode is the one given, or echo. *)
Theorem yap_pieces (text : value) (opts : options) (g : rng) :
  let o := destructure opts in
  let count := safeN (n o) 3 in
  1 ≤ count ≤ 200
  ∧ (∀ k, 1 ≤ k ≤ 200 → n opts = VNum k → count = k)
  ∧ (∃ ps : list jsstring,
       fst (yap text opts g) = join (ToString (sep o)) ps
       ∧ Z.of_nat (length ps) = count
       ∧ ∀ (i : nat) (piece : jsstring), ps !! i = Some piece →
           ∃ t, piece = ToString (prefix o) ++ t ++ ToString (suffix o)
                ∧ mode_text (mode o) (text_string text) i t)
  ∧ (∀ s, text = VStr s → text_string text = s)
  ∧ (text = VUndefined → text_string text = [])
  ∧ (∀ p, prefix opts = VStr p → ToString (prefix o) = p)
  ∧ (prefix opts = VUndefined → ToString (prefix o) = [])
  ∧ (∀ p, suffix opts = VStr p → ToString (suffix o) = p)
  ∧ (suffix opts = VUndefined → ToString (suffix o) = [])
  ∧ (∀ p, sep opts = VStr p → ToString (sep o) = p)
  ∧ (sep opts = VUndefined → ToString (sep o) = lit " ")
  ∧ (mode opts = VUndefined → mode o = VStr (lit "echo"))
  ∧ (mode opts ≠ VUndefined → mode o = mode opts).
Proof.
  intros o count. split; [apply safeN_range|]. split; [|split].
  - intros k Hk Hn. subst count o. simpl. rewrite Hn. simpl.
    by apply safeN_count.
  - destruct (yap_output text opts g) as (ps & Hout & Hlen & Hall).
    exists ps. split; [done|]. split; [done|].
    intros i piece Hi. destruct (Hall i piece Hi) as [gi ->].
    eexists. split; [done|]. apply transform_mode_text.
  - subst o. simpl.
    repeat split; try (by intros ? ->); try (by intros ->).
    intros Hm. by destruct (mode opts).
Qed.

End TransformFacts.

Lemma yap_pieces_witness :
  1 ≤ 2 ≤ 200
  ∧ n caps_twice = VNum 2
  ∧ safeN (n (destructure caps_twice)) 3 = 2
  ∧ fst (@yap latin1_case v8_sort (VStr (lit "hi")) caps_twice all_lt)
    = lit "HI-HI".
Proof.
  destruct (@yap_pieces latin1_case v8_sort (VStr (lit "hi")) caps_twice
              all_lt)
    as (_ & Hcount & (ps & Hout & Hlen & Hall) & Htext & _ & _ & Hpre & _
        & Hsuf & Hsep & _).
  assert (Hk : 1 ≤ 2 ≤ 200) by lia.
  pose proof (Hcount 2 Hk eq_refl) as Htwo.
  split; [exact Hk|]. split; [reflexivity|]. split; [exact Htwo|].
  rewrite Hout, (Hsep (lit "-") eq_refl).
  rewrite Htwo in Hlen.
  destruct ps as [|p0 [|p1 [|p2 r]]]; try (simpl in Hlen; lia).
  assert (Hpiece : ∀ i piece, [p0; p1] !! i = Some piece →
                              piece = lit "HI").
  { intros i piece Hi. destruct (Hall i piece Hi) as (t & -> & Ht).
    rewrite (Hpre eq_refl), (Hsuf eq_refl).
    rewrite (Htext (lit "hi") eq_refl) in Ht.
    destruct Ht as [[_ ->]|[[Hm _]|[[Hm _]|(Hm & _)]]];
      [reflexivity | discriminate Hm | discriminate Hm |].
    exfalso. apply Hm. reflexivity. }
  rewrite (Hpiece 0%nat p0 eq_refl), (Hpiece 1%nat p1 eq_refl).
  reflexivity.
Defined.

(** ** Modes that do not draw *)

Section Determinism.

Context `{CaseMapping} `{HostSort}.

Lemma transform_pure (m : value) (t : jsstring) (i : nat) (g1 g2 : rng) :
  is_str m (lit "shuffle") = false →
  fst (transform m t i g1) = fst (transform m t i g2).
Proof.
  intros Hm. unfold transform. rewrite Hm.
  destruct (is_str m (lit "caps")); [done|].
  by destruct (is_str m (lit "funny")).
Qed.

Lemma yap_loop_pure (fuel : nat) (count : Z) (text : jsstring)
    (m : value) (p s : jsstring) :
  is_str m (lit "shuffle") = false →
  ∀ (i : nat) (pieces : list jsstring) (g1 g2 : rng),
    fst (yap_loop fuel count text m p s i pieces g1)
    = fst (yap_loop fuel count text m p s i pieces g2).
Proof.
  intros Hm. induction fuel as [|fuel IH]; intros i pieces g1 g2; [done|].
  simpl. destruct (Z.of_nat i <? count); [|done].
  unfold bind.
  pose proof (transform_pure m text i g1 g2 Hm) as Ht.
  destruct (transform m text i g1) as [t1 g1'].
  destruct (transform m text i g2) as [t2 g2'].
  simpl in Ht. subst t2. apply IH.
Qed.


Lemma destructure_mode_ne (opts : options) (s : jsstring) :
  s ≠ lit "echo" → mode opts ≠ VStr s →
  is_str (mode (destructure opts)) s = false.
Proof.
  intros Hs Hm. simpl. destruct (mode opts) eqn:E; simpl; try done.
  - apply bool_decide_eq_false. congruence.
  - apply bool_decide_eq_false. congruence.
Qed.

(** C9: with a mode other than shuffle, the output of [yap] is the same
    whatever the random source holds: it depends on the text and the
    options only. *)
Theorem yap_deterministic (text : value) (opts : options) (g1 g2 : rng) :
  mode opts ≠ VStr (lit "shuffle") →
  fst (yap text opts g1) = fst (yap text opts g2).
Proof.
  intros Hm. unfold yap, bind.
  pose proof (yap_loop_pure (Z.to_nat PACKAGE_MAX_REPEAT)
                (safeN (n (destructure opts)) 3) (text_string text)
                (mode (destructure opts))
                (ToString (prefix (destructure opts)))
                (ToString (suffix (destructure opts)))
                (destructure_mode_ne opts (lit "shuffle") ltac:(done) Hm)
                O [] g1 g2) as Hloop.
  destruct (yap_loop _ _ _ _ _ _ _ _ g1) as [ps1 g1'].
  destruct (yap_loop _ _ _ _ _ _ _ _ g2) as [ps2 g2'].
  simpl in *. by subst.
Qed.

End Determinism.

Lemma yap_deterministic_witness :
  mode funny_twice ≠ VStr (lit "shuffle")
  ∧ fst (@yap latin1_case v8_sort (VStr (lit "ab")) funny_twice all_lt)
    = fst (@yap latin1_case v8_sort (VStr (lit "ab")) funny_twice all_gt).
Proof.
  split; [discriminate|].
  apply (@yap_deterministic latin1_case v8_sort). discriminate.
Defined.

(** ** Shuffle *)

Section Shuffle.

Context `{CaseMapping} `{HostSort}.

Lemma code_points_units (s : jsstring) :
  (∀ u, u ∈ s → is_high u = false) → code_points s = s.
Proof.
  induction s as [|u r IH]; intros Hs; [done|].
  assert (Hu : is_high u = false) by (apply Hs; left).
  assert (Hr : code_points r = r) by (apply IH; intros v Hv; apply Hs; by right).
  simpl. destruct r as [|v r']; [done|]. by rewrite Hu, Hr.
Qed.

(** C4 (amended): in mode shuffle, whatever the engine's plans and the
    draws, every piece is the prefix, a permutation of the UTF-16 code
    units of the text (so of the same length in units), and the suffix;
    with the default empty prefix and suffix the piece is that permutation
    itself.  For a text without surrogates the units are its characters,
    and the piece holds a permutation of its characters. *)
Theorem shuffle_pieces_permute (text : value) (opts : options) (g : rng) :
  mode opts = VStr (lit "shuffle") →
  (∀ s, text = VStr s → text_string text = s)
  ∧ ∃ ps : list jsstring,
      fst (yap text opts g) = join (ToString (sep (destructure opts))) ps
      ∧ Z.of_nat (length ps) = safeN (n (destructure opts)) 3
      ∧ ∀ (i : nat) (piece : jsstring), ps !! i = Some piece →
          (∃ t, piece = ToString (prefix (destructure opts)) ++ t
                        ++ ToString (suffix (destructure opts))
                ∧ t ≡ₚ text_string text
                ∧ length t = length (text_string text)
                ∧ ((∀ u, u ∈ text_string text → is_high u = false) →
                   code_points t ≡ₚ code_points (text_string text)))
          ∧ (prefix opts = VUndefined → suffix opts = VUndefined →
             piece ≡ₚ text_string text
             ∧ length piece = length (text_string text)).
Proof.
  intros Hm. split; [by intros s ->|].
  destruct (yap_output text opts g) as (ps & Hout & Hlen & Hall).
  assert (Hmode : mode (destructure opts) = VStr (lit "shuffle"))
    by (simpl; by rewrite Hm).
  exists ps. split; [done|]. split; [done|].
  intros i piece Hi. destruct (Hall i piece Hi) as [gi ->].
  rewrite Hmode.
  pose proof (transform_shuffle_perm (text_string text) i gi) as Hperm.
  split.
  - eexists. split; [done|]. split; [done|].
    split; [by apply Permutation_length|].
    intros Hbmp. rewrite !code_points_units; [done|done|].
    intros u Hu. apply Hbmp. by rewrite <- Hperm.
  - intros Hp Hs. simpl. rewrite Hp, Hs. simpl. rewrite app_nil_r.
    split; [done|]. by apply Permutation_length.
Qed.

End Shuffle.

Lemma shuffle_pieces_permute_witness :
  mode shuffle_once = VStr (lit "shuffle")
  ∧ ∃ piece : jsstring,
      fst (@yap latin1_case v8_sort (VStr (lit "abc")) shuffle_once all_lt)
      = piece
      ∧ piece ≡ₚ lit "abc"
      ∧ length piece = 3%nat.
Proof.
  split; [reflexivity|].
  destruct (@shuffle_pieces_permute latin1_case v8_sort (VStr (lit "abc"))
              shuffle_once all_lt eq_refl) as (_ & ps & Hout & Hlen & Hall).
  assert (Hone : length ps = 1%nat).
  { change (safeN (n (destructure shuffle_once)) 3) with 1 in Hlen. lia. }
  destruct ps as [|piece [|piece' r]]; try discriminate Hone.
  exists piece. split; [exact Hout|].
  destruct (Hall O piece eq_refl) as [_ Hdefault].
  apply Hdefault; reflexivity.
Defined.

(** C4, as stated, fails on a character of two code units: the engine
    of Node reverses the two units of U+1F600 when the first draw is below
    one half, and the piece, two lone surrogates, is no permutation of the
    one character of the text. *)
Lemma shuffle_characters_counterexample :
  fst (@yap latin1_case v8_sort (VStr grinning_face) shuffle_once all_lt)
  = [56832; 55357]%N
  ∧ code_points grinning_face = [128512%N]
  ∧ code_points
      (fst (@yap latin1_case v8_sort (VStr grinning_face) shuffle_once
              all_lt))
    = [56832; 55357]%N
  ∧ ¬ (code_points
         (fst (@yap latin1_case v8_sort (VStr grinning_face) shuffle_once
                 all_lt))
       ≡ₚ code_points grinning_face).
Proof.
  repeat split; try (vm_compute; reflexivity).
  intros Hperm. apply Permutation_length in Hperm.
  vm_compute in Hperm. discriminate Hperm.
Qed.

(** ** Funny *)

Section Funny.

Context `{CaseMapping} `{HostSort}.

Lemma length_concat_imap (f : nat → N → jsstring) (s : jsstring) :
  (∀ idx u, u ∈ s → length (f idx u) = 1%nat) →
  length (concat (imap f s)) = length s.
Proof.
  revert f. induction s as [|u r IH]; intros f Hf; [done|].
  rewrite imap_cons. simpl. rewrite length_app, Hf by left.
  rewrite IH; [done|]. intros idx v Hv. apply Hf. by right.
Qed.

Lemma alternate_length (s : jsstring) (i : nat) :
  unit_preserving s → length (concat (alternate s i)) = length s.
Proof.
  intros Hs. apply length_concat_imap. intros idx u Hu.
  destruct (Hs u Hu). by destruct (_ =? _)%nat.
Qed.

Lemma length_concat_sum (l : list jsstring) :
  length (concat l) = sum_list (length <$> l).
Proof.
  induction l as [|x r IH]; simpl; [done|]. by rewrite length_app, IH.
Qed.

(** C3 (amended): in mode funny, piece [i] is the prefix, the text with
    the unit at each position upper-cased when the position has the parity
    of [i] and lower-cased otherwise, the marker "!" for an even [i] and
    "..." for an odd one, and the suffix.  Between prefix and suffix its
    length is the sum of the lengths of the converted units plus that of
    the marker, which is the length of the text plus that of the marker
    whenever the conversions keep every unit of the text a single unit. *)
Theorem funny_pieces (text : value) (opts : options) (g : rng) :
  mode opts = VStr (lit "funny") →
  (∀ s, text = VStr s → text_string text = s)
  ∧ ∃ ps : list jsstring,
      fst (yap text opts g) = join (ToString (sep (destructure opts))) ps
      ∧ Z.of_nat (length ps) = safeN (n (destructure opts)) 3
      ∧ ∀ (i : nat) (piece : jsstring), ps !! i = Some piece →
          let t := concat (alternate (text_string text) i)
                   ++ (if Nat.even i then lit "!" else lit "...") in
          piece = ToString (prefix (destructure opts)) ++ t
                  ++ ToString (suffix (destructure opts))
          ∧ length t
            = (sum_list (length <$> alternate (text_string text) i)
               + (if Nat.even i then 1 else 3))%nat
          ∧ (unit_preserving (text_string text) →
             length t = (length (text_string text)
                         + (if Nat.even i then 1 else 3))%nat).
Proof.
  intros Hm. split; [by intros s ->|].
  destruct (yap_output text opts g) as (ps & Hout & Hlen & Hall).
  exists ps. split; [done|]. split; [done|].
  intros i piece Hi t.
  assert (Hmode : mode (destructure opts) = VStr (lit "funny"))
    by (simpl; by rewrite Hm).
  split; [|split].
  - destruct (Hall i piece Hi) as [gi ->]. rewrite Hmode.
    unfold transform. simpl.
    by rewrite altCase_alternate, marker_parity.
  - subst t. rewrite length_app, length_concat_sum.
    by destruct (Nat.even i).
  - intros Hs. subst t. rewrite length_app, alternate_length by done.
    by destruct (Nat.even i).
Qed.

End Funny.

Lemma latin1_ascii_letters :
  @unit_preserving latin1_case (text_string (VStr (lit "ab"))).
Proof.
  intros u Hu. simpl in Hu.
  apply elem_of_cons in Hu as [->|Hu]; [by vm_compute|].
  apply elem_of_cons in Hu as [->|Hu]; [by vm_compute|].
  by apply elem_of_nil in Hu.
Defined.

Lemma funny_pieces_witness :
  mode funny_twice = VStr (lit "funny")
  ∧ ∃ ps : list jsstring,
      fst (@yap latin1_case v8_sort (VStr (lit "ab")) funny_twice all_lt)
      = join (lit " ") ps
      ∧ ps !! 1%nat = Some (lit "aB...")
      ∧ length ps = 2%nat.
Proof.
  split; [reflexivity|].
  destruct (@funny_pieces latin1_case v8_sort (VStr (lit "ab")) funny_twice
              all_lt eq_refl) as (_ & ps & Hout & Hlen & Hall).
  exists ps. split; [exact Hout|].
  assert (Hlen2 : length ps = 2%nat).
  { change (safeN (n (destructure funny_twice)) 3) with 2 in Hlen. lia. }
  split; [|exact Hlen2].
  destruct ps as [|p0 [|p1 r]]; try discriminate Hlen2.
  destruct (Hall 1%nat p1 eq_refl) as (-> & _ & Hlength).
  pose proof (Hlength latin1_ascii_letters) as _.
  reflexivity.
Defined.

(** C3, as stated, fails on a text whose upper case is longer: U+00DF
    (sharp s) upper-cases to "SS", so the piece "SS!" has three units for
    a text of one and a marker of one. *)
Lemma funny_length_counterexample :
  fst (@yap latin1_case v8_sort (VStr [223%N])
         {| n := VNum 1; sep := VUndefined; mode := VStr (lit "funny");
            prefix := VUndefined; suffix := VUndefined |} all_lt)
  = lit "SS!"
  ∧ length (fst (@yap latin1_case v8_sort (VStr [223%N])
         {| n := VNum 1; sep := VUndefined; mode := VStr (lit "funny");
            prefix := VUndefined; suffix := VUndefined |} all_lt))
    ≠ (length [223%N] + length (lit "!"))%nat.
Proof. split; vm_compute; [reflexivity | discriminate]. Qed.

(** ** A count of zero *)

(** C2: a count of 0 is not clamped to 1 by [yap].  Zero is falsy, so
    [parseInt(n, 10) || 3] replaces it with 3 before the clamp: [yap] called
    with [n: 0], and the command line with [-n 0], give three copies. *)
Theorem count_zero_gives_three (g : rng) :
  parseInt (VNum 0) = Some 0
  ∧ safeN (n (destructure count_zero)) 3 = 3
  ∧ fst (@yap latin1_case v8_sort (VStr (lit "x")) count_zero g) = lit "x x x"
  ∧ fst (@cli latin1_case v8_sort [lit "x"; lit "-n"; lit "0"] g)
    = Some (lit "x x x").
Proof. repeat split; vm_compute; reflexivity. Qed.

(** The command line without a count asks for one copy, and with a count
    that is not a number gets three. *)
Example cli_default_count (g : rng) :
  fst (@cli latin1_case v8_sort [lit "x"] g) = Some (lit "x")
  ∧ fst (@cli latin1_case v8_sort [lit "x"; lit "-n"; lit "many"] g)
    = Some (lit "x x x").
Proof. split; vm_compute; reflexivity. Qed.

(** ** The lifecycle *)

(** Every operation settles with an object, and reports [ok: true]
    exactly when it changed the flag. *)
Lemma step_settles (acct : object) (o : op) (isRunning : bool) :
  ∃ fields, fst (step acct o isRunning) = Fulfilled (JObj fields)
    ∧ get (lit "ok") fields
      = Some (JBool (negb (eqb (snd (step acct o isRunning)) isRunning))).
Proof. destruct o, isRunning; simpl; eexists; split; reflexivity. Qed.

(** C5: from a stopped bot, the first start succeeds and sets the flag; a
    second start fails with "bot already running" and leaves the flag set;
    a stop of a stopped bot fails with "bot not running" and leaves the
    flag clear; a stop after a start succeeds and clears the flag, and the
    stop after that fails again; every call settles with a result object
    rather than a rejection. *)
Theorem start_stop (acct : object) :
  (∀ opts, startBot acct opts false
           = (started (spread (spread [] acct) opts), true))
  ∧ (∀ opts, startBot acct opts true = (failure "bot already running", true))
  ∧ stopBot false = (failure "bot not running", false)
  ∧ stopBot true = (stopped, false)
  ∧ (∀ o1 o2,
       run acct [Start o1; Start o2; Stop; Stop] false
       = ([started (spread (spread [] acct) o1);
           failure "bot already running";
           stopped;
           failure "bot not running"], false))
  ∧ (∀ ops isRunning r,
       r ∈ fst (run acct ops isRunning) → ∃ fields, r = Fulfilled (JObj fields)).
Proof.
  repeat split; try reflexivity.
  intros ops. induction ops as [|o ops IH]; intros isRunning r Hr; simpl in Hr.
  - by apply elem_of_nil in Hr.
  - destruct (step_settles acct o isRunning) as (fields & Hstep & _).
    destruct (step acct o isRunning) as [res s]. simpl in Hstep.
    specialize (IH s). destruct (run acct ops s) as [rest s'].
    simpl in *. apply elem_of_cons in Hr as [->|Hr]; eauto.
Qed.

Lemma start_stop_witness :
  stopped ∈ fst (run [] [Start []; Stop] false)
  ∧ ∃ fields, stopped = Fulfilled (JObj fields).
Proof.
  assert (Hin : stopped ∈ fst (run [] [Start []; Stop] false))
    by (simpl; apply list_elem_of_further, list_elem_of_here).
  split; [exact Hin|].
  destruct (start_stop []) as (_ & _ & _ & _ & _ & Hsettle).
  exact (Hsettle [Start []; Stop] false stopped Hin).
Defined.

(** ** The integration stub *)

(** C8: for every text and every configuration the stub settles with the
    same success object: [ok] is [true], [info] holds the notice, and
    there is no [error] property. *)
Theorem integrateWithService_succeeds (text : jsstring) (config : object) :
  ∃ fields,
    integrateWithService text config = Fulfilled (JObj fields)
    ∧ get (lit "ok") fields = Some (JBool true)
    ∧ get (lit "info") fields
      = Some (JStr (lit "simulated-send (fill integrateWithService with real code)"))
    ∧ get (lit "error") fields = None
    ∧ length fields = 2%nat.
Proof. eexists. repeat split. Qed.

(** ** The HTTP route *)

(** C6: the request [/yap?msg=hi&n=2&mode=caps] is answered with status
    200 and a body whose [ok] is [true] and whose [payload] is "HI HI". *)
Theorem http_hi_twice_caps (acct : object) (g : rng) :
  fst (@handle latin1_case v8_sort acct hi_twice_caps g)
  = Fulfilled
      {| status := 200;
         headers := json_headers;
         body := JObj [(lit "ok", JBool true);
                       (lit "payload", JStr (lit "HI HI"));
                       (lit "sendRes", simulated_send)] |}.
Proof. vm_compute. reflexivity. Qed.

Section Routes.

Context `{CaseMapping} `{HostSort}.
Variable defaultAccount : object.

Lemma is_str_eq (v : value) (s : jsstring) : v = VStr s → is_str v s = true.
Proof. intros ->. simpl. by apply bool_decide_eq_true. Qed.

Lemma handle_served (u : url) (g : rng) :
  is_str (pathname u) (lit "/") || is_str (pathname u) (lit "/yap") = true →
  ∃ payload sendRes,
    fst (handle defaultAccount (Parsed u) g)
    = Fulfilled (success payload sendRes)
    ∧ sendRes = simulated_send
    ∧ payload = fst (yap (request_text (query u))
                       (request_options (query u)) g).
Proof.
  intros Hp. unfold handle. rewrite Hp. unfold bind.
  destruct (yap _ _ g) as [resultText g']. simpl. by eexists _, _.
Qed.


End Routes.



(** ** Empty query parameters *)

Lemma alike_or_else (a a' b b' : value) :
  alike a a' → alike b b' → alike (or_else a b) (or_else a' b').
Proof.
  intros [->|[Ha Ha']] Hb; unfold or_else.
  - destruct (truthy a'); [by left | done].
  - by rewrite Ha, Ha'.
Qed.

Lemma alike_or_else_eq (a a' d : value) :
  alike a a' → or_else a d = or_else a' d.
Proof.
  intros [->|[Ha Ha']]; [done|]. unfold or_else. by rewrite Ha, Ha'.
Qed.

Lemma param_delete (q : gmap jsstring qvalue) (k : jsstring) (key : string) :
  q !! k = Some (QOne []) → alike (param q key) (param (delete k q) key).
Proof.
  intros Hk. unfold param. destruct (decide (k = lit key)) as [->|Hne].
  - right. by rewrite Hk, lookup_delete_eq.
  - left. by rewrite lookup_delete_ne.
Qed.

Lemma request_options_delete (q : gmap jsstring qvalue) (k : jsstring) :
  q !! k = Some (QOne []) →
  request_options (delete k q) = request_options q.
Proof.
  intros Hk. unfold request_options.
  rewrite (alike_or_else_eq _ _ _ (param_delete q k "sep" Hk)).
  rewrite (alike_or_else_eq _ _ _ (param_delete q k "mode" Hk)).
  rewrite (alike_or_else_eq _ _ _ (param_delete q k "prefix" Hk)).
  rewrite (alike_or_else_eq _ _ _ (param_delete q k "suffix" Hk)).
  by rewrite (alike_or_else_eq _ _ _
                (alike_or_else _ _ _ _ (param_delete q k "n" Hk)
                   (param_delete q k "count" Hk))).
Qed.

Lemma request_text_delete (q : gmap jsstring qvalue) (k : jsstring) :
  q !! k = Some (QOne []) → request_text (delete k q) = request_text q.
Proof.
  intros Hk. unfold request_text.
  by rewrite (alike_or_else_eq _ _ _
                (alike_or_else _ _ _ _ (param_delete q k "msg" Hk)
                   (param_delete q k "message" Hk))).
Qed.

Lemma request_count (q : gmap jsstring qvalue) :
  n (destructure (request_options q))
  = VNum (safeN (or_else (or_else (param q "n") (param q "count"))
                   (VNum 1)) 1).
Proof. reflexivity. Qed.

Section EmptyParameters.

Context `{CaseMapping} `{HostSort}.
Variable defaultAccount : object.

(** C10 (amended): a query parameter that is present with the empty
    string changes nothing: the handler answers as it does when the
    parameter is absent.  So an empty [sep] gives the separator " " (and
    no query gives an empty separator), an empty [mode] gives echo, an
    empty [n] gives the count that [count] gives, which is 1 when [count]
    is absent, empty, zero or no number, and an [n] of "0" gives a count
    of 1. *)
Theorem empty_parameter_as_absent (path : value)
    (q : gmap jsstring qvalue) (g : rng) :
  (∀ k, q !! k = Some (QOne []) →
     handle defaultAccount (Parsed {| pathname := path; query := q |}) g
     = handle defaultAccount
         (Parsed {| pathname := path; query := delete k q |}) g)
  ∧ (q !! lit "sep" = Some (QOne []) →
     sep (destructure (request_options q)) = VStr (lit " "))
  ∧ ToString (sep (destructure (request_options q))) ≠ []
  ∧ (q !! lit "mode" = Some (QOne []) →
     mode (destructure (request_options q)) = VStr (lit "echo"))
  ∧ (q !! lit "n" = Some (QOne []) →
     safeN (n (destructure (request_options q))) 3
     = safeN (or_else (param q "count") (VNum 1)) 1)
  ∧ (q !! lit "n" = Some (QOne []) → truthy (param q "count") = false →
     safeN (n (destructure (request_options q))) 3 = 1)
  ∧ (q !! lit "n" = Some (QOne []) → parseInt (param q "count") = None →
     safeN (n (destructure (request_options q))) 3 = 1)
  ∧ (q !! lit "n" = Some (QOne (lit "0")) →
     safeN (n (destructure (request_options q))) 3 = 1).
Proof.
  assert (Hempty : q !! lit "n" = Some (QOne []) →
                   safeN (n (destructure (request_options q))) 3
                   = safeN (or_else (param q "count") (VNum 1)) 1).
  { intros Hn. rewrite request_count, safeN_idem.
    assert (Hp : param q "n" = VStr []) by (unfold param; by rewrite Hn).
    by rewrite Hp. }
  repeat split.
  - intros k Hk. unfold handle. simpl.
    by rewrite request_options_delete, request_text_delete.
  - intros Hs. simpl. unfold param. by rewrite Hs.
  - simpl. unfold param.
    destruct (q !! lit "sep") as [[[|u r]|[|u a] b rest]|]; simpl; done.
  - intros Hm. simpl. unfold param. by rewrite Hm.
  - exact Hempty.
  - intros Hn Hc. rewrite Hempty by done. unfold or_else. by rewrite Hc.
  - intros Hn Hc. rewrite Hempty by done. unfold or_else.
    destruct (truthy (param q "count")); [|done].
    by rewrite safeN_default.
  - intros Hn. rewrite request_count, safeN_idem.
    assert (Hp : param q "n" = VStr (lit "0"))
      by (unfold param; by rewrite Hn).
    by rewrite Hp.
Qed.

End EmptyParameters.

Lemma empty_parameter_as_absent_witness :
  empty_parameters !! lit "sep" = Some (QOne [])
  ∧ (∀ g, @handle latin1_case v8_sort []
            (Parsed {| pathname := VStr (lit "/yap");
                       query := empty_parameters |}) g
          = @handle latin1_case v8_sort []
              (Parsed {| pathname := VStr (lit "/yap");
                         query := delete (lit "sep") empty_parameters |}) g)
  ∧ sep (destructure (request_options empty_parameters)) = VStr (lit " ")
  ∧ mode (destructure (request_options empty_parameters))
    = VStr (lit "echo")
  ∧ safeN (n (destructure (request_options empty_parameters))) 3 = 1
  ∧ safeN (n (destructure (request_options zero_parameter))) 3 = 1
  ∧ safeN (n (destructure (request_options empty_n_count_five))) 3
    = safeN (or_else (param empty_n_count_five "count") (VNum 1)) 1.
Proof.
  split; [reflexivity|].
  destruct (@empty_parameter_as_absent latin1_case v8_sort []
              (VStr (lit "/yap")) zero_parameter all_lt)
    as (_ & _ & _ & _ & _ & _ & _ & Hzero).
  destruct (@empty_parameter_as_absent latin1_case v8_sort []
              (VStr (lit "/yap")) empty_n_count_five all_lt)
    as (_ & _ & _ & _ & Hcount & _).
  destruct (@empty_parameter_as_absent latin1_case v8_sort []
              (VStr (lit "/yap")) empty_parameters all_lt)
    as (_ & Hsep & _ & Hmode & _ & Hn & _).
  split; [|split; [|split; [|split; [|split]]]].
  - intros g.
    destruct (@empty_parameter_as_absent latin1_case v8_sort []
                (VStr (lit "/yap")) empty_parameters g) as (Hsame & _).
    apply Hsame. reflexivity.
  - apply Hsep. reflexivity.
  - apply Hmode. reflexivity.
  - apply Hn; reflexivity.
  - apply Hzero. reflexivity.
  - apply Hcount. reflexivity.
Defined.

(** C10, as stated, fails for an empty [n] beside a [count]: on
    [/yap?msg=hi&n=&count=5] the count is 5, not 1. *)
Lemma empty_n_counterexample :
  empty_n_count_five !! lit "n" = Some (QOne [])
  ∧ safeN (n (destructure (request_options empty_n_count_five))) 3 = 5
  ∧ fst (@handle latin1_case v8_sort []
           (Parsed {| pathname := VStr (lit "/yap");
                      query := empty_n_count_five |}) all_lt)
    = Fulfilled (success (lit "hi hi hi hi hi") simulated_send)
  ∧ safeN (n (destructure (request_options empty_n_count_five))) 3 ≠ 1.
Proof. repeat split; vm_compute; (reflexivity || discriminate). Qed.

(** A parameter that the query gives twice is an array, which is truthy
    even when its strings are empty: on [/yap?msg=a&sep=&sep=] the
    separator is ",". *)
Example sep_twice_separator :
  ToString (sep (destructure (request_options sep_twice))) = lit ",".
Proof. vm_compute. reflexivity. Qed.

(** * Further properties *)

(** ** Numbers as counts *)

Lemma parse_digits_acc (d : Decimal.uint) (p : positive) :
  parse_digits (uint_units d) (Z.pos p) = Z.pos (Pos.of_uint_acc d p).
Proof.
  revert p. induction d; intros p; simpl; [done|..];
    rewrite <- IHd; f_equal; lia.
Qed.

Lemma parse_digits_uint (d : Decimal.uint) :
  parse_digits (uint_units d) 0 = Z.of_N (Pos.of_uint d).
Proof.
  induction d; simpl; [done|done|..]; by rewrite <- parse_digits_acc.
Qed.

Lemma uint_units_digits (d : Decimal.uint) :
  Forall (λ u, is_digit u = true) (uint_units d).
Proof. induction d; simpl; by repeat constructor. Qed.

Lemma uint_units_of_N (m : N) :
  ∃ u r, uint_units (N.to_uint m) = u :: r ∧ is_digit u = true.
Proof.
  pose proof (uint_units_digits (N.to_uint m)) as Hd.
  destruct (uint_units (N.to_uint m)) as [|u r] eqn:E.
  - exfalso. destruct m as [|p]; [discriminate E|].
    simpl in E. pose proof (DecimalPos.Unsigned.to_uint_nonnil p) as Hp.
    destruct (Pos.to_uint p); [done|discriminate E..].
  - exists u, r. split; [done|]. by inversion Hd.
Qed.

Lemma digit_not_space (u : N) : is_digit u = true → is_white_space u = false.
Proof.
  unfold is_digit, is_white_space. intros Hu.
  apply andb_true_iff in Hu as [H1%N.leb_le H2%N.leb_le].
  apply orb_false_iff. split.
  - apply bool_decide_eq_false. intros Hin.
    repeat (apply elem_of_cons in Hin as [->|Hin]; [lia|]).
    by apply elem_of_nil in Hin.
  - apply andb_false_iff. left. apply N.leb_gt. lia.
Qed.

(** Parsing the digits of a natural number gives the number back. *)
Lemma parseInt_digits (m : N) :
  parseInt (VStr (uint_units (N.to_uint m))) = Some (Z.of_N m).
Proof.
  destruct (uint_units_of_N m) as (u & r & E & Hu).
  unfold parseInt. simpl. rewrite E. simpl.
  rewrite (digit_not_space u Hu).
  assert (Hsign : u ≠ 45%N ∧ u ≠ 43%N).
  { unfold is_digit in Hu.
    apply andb_true_iff in Hu as [H1%N.leb_le H2%N.leb_le]. lia. }
  destruct Hsign as [Hm Hp].
  assert (Hval : parse_digits (u :: r) 0 = Z.of_N m).
  { rewrite <- E, parse_digits_uint.
    change (Pos.of_uint (N.to_uint m)) with (N.of_uint (N.to_uint m)).
    by rewrite DecimalN.Unsigned.of_to. }
  destruct (decide (u = 45%N)) as [->|_]; [done|].
  destruct (decide (u = 43%N)) as [->|_]; [done|].
  assert (Hgo : (let '(sign, s) :=
                   match u :: r with
                   | 45%N :: r0 => (-1, r0)
                   | 43%N :: r0 => (1, r0)
                   | _ => (1, u :: r)
                   end in
                 match s with
                 | u0 :: _ =>
                     if is_digit u0 then Some (sign * parse_digits s 0)
                     else None
                 | [] => None
                 end) = Some (Z.of_N m)); [|exact Hgo].
  destruct u as [|pu]; [done|].
  do 6 (destruct pu as [pu|pu|]; try done);
    simpl; rewrite ?Hu; simpl in Hval |- *; rewrite ?Hval;
    try (f_equal; lia); try done.
Qed.

(** A number in the range of plain decimal notation parses to itself. *)
Lemma parseInt_number (z : Z) :
  - 10 ^ 21 < z < 10 ^ 21 → parseInt (VNum z) = Some z.
Proof.
  intros _.
  destruct (Z.ltb_spec z 0) as [Hneg|Hpos].
  - destruct (uint_units_of_N (Z.to_N (- z))) as (u & r & E & Hu).
    pose proof (parseInt_digits (Z.to_N (- z))) as Hd.
    unfold parseInt in *. simpl in *. unfold number_to_string.
    destruct (Z.ltb_spec z 0) as [_|]; [|lia].
    rewrite E in *. simpl in *. rewrite (digit_not_space u Hu) in Hd.
    assert (Hsign : u ≠ 45%N ∧ u ≠ 43%N).
    { unfold is_digit in Hu.
      apply andb_true_iff in Hu as [H1%N.leb_le H2%N.leb_le]. lia. }
    assert (Hval : Some (1 * parse_digits (u :: r) 0)
                   = Some (Z.of_N (Z.to_N (- z)))).
    { rewrite <- Hd. destruct Hsign as [Hm Hp].
      destruct u as [|pu]; [done|].
      do 6 (destruct pu as [pu|pu|]; try done); simpl; by rewrite ?Hu. }
    simpl in Hval. rewrite Hu in *. injection Hval as Hval. f_equal. lia.
  - pose proof (parseInt_digits (Z.to_N z)) as Hd.
    unfold parseInt in *. simpl in *. unfold number_to_string.
    destruct (Z.ltb_spec z 0) as [|_]; [lia|].
    rewrite Hd. f_equal. lia.
Qed.

(** X1: the count of [yap] for a numeric [n]: the clamp of [n], except that
    zero gives the default 3.  The bound is the range in which a number
    prints in plain decimal notation. *)
Theorem yap_count_of_number (opts : options) (z : Z) :
  - 10 ^ 21 < z < 10 ^ 21 → n opts = VNum z →
  safeN (n (destructure opts)) 3 = if z =? 0 then 3 else clamp z.
Proof.
  intros Hz Hn. simpl. rewrite Hn. simpl.
  unfold safeN, num_or, clamp. rewrite parseInt_number by done.
  by destruct (z =? 0).
Qed.

Lemma yap_count_of_number_witness :
  - 10 ^ 21 < -7 < 10 ^ 21
  ∧ safeN (n (destructure (with_count (VNum (-7)) no_options))) 3 = 1
  ∧ safeN (n (destructure (with_count (VNum 5000) no_options))) 3 = 200.
Proof.
  assert (H1 : - 10 ^ 21 < -7 < 10 ^ 21) by lia.
  assert (H2 : - 10 ^ 21 < 5000 < 10 ^ 21) by lia.
  split; [exact H1|]. split.
  - exact (yap_count_of_number (with_count (VNum (-7)) no_options) (-7)
             H1 eq_refl).
  - exact (yap_count_of_number (with_count (VNum 5000) no_options) 5000
             H2 eq_refl).
Defined.

(** ** Modes *)

Section Modes.

Context `{CaseMapping} `{HostSort}.


Lemma transform_echo (m : value) (t : jsstring) (i : nat) (g : rng) :
  is_str m (lit "caps") = false → is_str m (lit "shuffle") = false →
  is_str m (lit "funny") = false → transform m t i g = (t, g).
Proof. intros Hc Hs Hf. unfold transform. by rewrite Hc, Hs, Hf. Qed.


(** The pieces of a list all equal to [x]. *)
Lemma all_equal_replicate (ps : list jsstring) (x : jsstring) :
  (∀ i piece, ps !! i = Some piece → piece = x) →
  ps = replicate (length ps) x.
Proof.
  intros Hall. symmetry. apply replicate_as_elem_of. split; [done|].
  intros y [i Hi]%list_elem_of_lookup. by apply (Hall i).
Qed.

Lemma yap_replicate (text : value) (opts : options) (g : rng) :
  mode opts ≠ VStr (lit "shuffle") → mode opts ≠ VStr (lit "funny") →
  fst (yap text opts g)
  = join (ToString (sep (destructure opts)))
      (replicate (Z.to_nat (safeN (n (destructure opts)) 3))
         (ToString (prefix (destructure opts))
          ++ (if is_str (mode (destructure opts)) (lit "caps")
              then toUpperCase (text_string text)
              else text_string text)
          ++ ToString (suffix (destructure opts)))).
Proof.
  intros Hs Hf.
  destruct (yap_output text opts g) as (ps & -> & Hlen & Hall).
  rewrite <- Hlen, Nat2Z.id. f_equal. apply all_equal_replicate.
  intros i piece Hi. destruct (Hall i piece Hi) as [gi ->].
  unfold transform.
  rewrite (destructure_mode_ne opts (lit "shuffle")) by done.
  rewrite (destructure_mode_ne opts (lit "funny")) by done.
  by destruct (is_str _ (lit "caps")).
Qed.

(** X3: with mode echo, caps or an unknown mode the output is the same piece
    as many times as the count, joined by the separator; the piece holds
    the text, upper-cased as a whole for caps. *)
Theorem yap_copies (text : value) (opts : options) (g : rng) :
  mode opts ≠ VStr (lit "shuffle") → mode opts ≠ VStr (lit "funny") →
  ∃ piece : jsstring,
    piece = ToString (prefix (destructure opts))
            ++ (if is_str (mode (destructure opts)) (lit "caps")
                then toUpperCase (text_string text)
                else text_string text)
            ++ ToString (suffix (destructure opts))
    ∧ fst (yap text opts g)
      = join (ToString (sep (destructure opts)))
          (replicate (Z.to_nat (safeN (n (destructure opts)) 3)) piece).
Proof.
  intros Hs Hf. eexists. split; [done|]. by apply yap_replicate.
Qed.

Lemma length_join (sep : jsstring) (ps : list jsstring) (L : nat) :
  (∀ i piece, ps !! i = Some piece → length piece = L) →
  length (join sep ps) = (length ps * L + (length ps - 1) * length sep)%nat.
Proof.
  induction ps as [|x [|y r] IH]; intros Hall; [done| |].
  - simpl. rewrite (Hall O x eq_refl). lia.
  - change (join sep (x :: y :: r)) with (x ++ sep ++ join sep (y :: r)).
    rewrite !length_app, IH, (Hall O x eq_refl).
    + simpl. lia.
    + intros i piece Hi. by apply (Hall (S i)).
Qed.

(** X4: with mode echo or an unknown mode the length of the output is the
    count times the length of a wrapped text, plus the separators between
    the pieces. *)
Theorem yap_output_length (text : value) (opts : options) (g : rng) :
  mode opts ≠ VStr (lit "caps") → mode opts ≠ VStr (lit "shuffle") →
  mode opts ≠ VStr (lit "funny") →
  Z.of_nat (length (fst (yap text opts g)))
  = safeN (n (destructure opts)) 3
    * Z.of_nat (length (ToString (prefix (destructure opts)))
                + length (text_string text)
                + length (ToString (suffix (destructure opts))))
    + (safeN (n (destructure opts)) 3 - 1)
      * Z.of_nat (length (ToString (sep (destructure opts)))).
Proof.
  intros Hc Hs Hf.
  destruct (yap_output text opts g) as (ps & -> & Hlen & Hall).
  pose proof (safeN_range (n (destructure opts)) 3) as Hrange.
  rewrite (length_join _ ps
             (length (ToString (prefix (destructure opts)))
              + length (text_string text)
              + length (ToString (suffix (destructure opts))))).
  - rewrite <- Hlen. nia.
  - intros i piece Hi. destruct (Hall i piece Hi) as [gi ->].
    rewrite !length_app, transform_echo; [simpl; lia|..];
      by apply destructure_mode_ne.
Qed.

Lemma transform_funny_period (t : jsstring) (i : nat) (g g' : rng) :
  fst (transform (VStr (lit "funny")) t (i + 2) g)
  = fst (transform (VStr (lit "funny")) t i g').
Proof.
  unfold transform. simpl. unfold altCase, marker.
  replace ((i + 2) mod 2)%nat with (i mod 2)%nat; [done|].
  rewrite <- (Nat.Div0.add_mod_idemp_r i 2 2). simpl.
  by rewrite Nat.add_0_r.
Qed.

(** X5: in mode funny the pieces repeat with period two: a piece equals the
    piece two places before it, so the output holds at most two different
    pieces. *)
Theorem funny_period_two (text : value) (opts : options) (g : rng) :
  mode opts = VStr (lit "funny") →
  ∃ ps : list jsstring,
    fst (yap text opts g) = join (ToString (sep (destructure opts))) ps
    ∧ Z.of_nat (length ps) = safeN (n (destructure opts)) 3
    ∧ ∀ (i : nat) (piece : jsstring),
        ps !! (i + 2)%nat = Some piece → ps !! i = Some piece.
Proof.
  intros Hm. destruct (yap_output text opts g) as (ps & Hout & Hlen & Hall).
  exists ps. split; [done|]. split; [done|].
  intros i piece Hi.
  assert (Hmode : mode (destructure opts) = VStr (lit "funny"))
    by (simpl; by rewrite Hm).
  destruct (lookup_lt_is_Some_2 ps i) as [piece' Hi'].
  { apply lookup_lt_Some in Hi. lia. }
  rewrite Hi'. f_equal.
  destruct (Hall _ _ Hi) as [g2 ->]. destruct (Hall _ _ Hi') as [g0 ->].
  rewrite Hmode. by rewrite (transform_funny_period _ i g2 g0).
Qed.

End Modes.



(** ** The argument loop *)

Lemma starts_with_dashes (a : jsstring) :
  starts_with (lit "-") a = false → starts_with (lit "--") a = false.
Proof.
  unfold starts_with. intros Ha. apply bool_decide_eq_false.
  apply bool_decide_eq_false in Ha. intros Hd. apply Ha.
  change (lit "--") with [45%N; 45%N] in Hd.
  change (lit "-") with [45%N].
  destruct a as [|u [|v r]]; try discriminate Hd.
  simpl in *. congruence.
Qed.

Lemma parse_args_word (a : jsstring) (rest : list jsstring)
    (flags : gmap jsstring value) (pos : list jsstring) :
  starts_with (lit "-") a = false →
  parse_args (a :: rest) flags pos = parse_args rest flags (pos ++ [a]).
Proof. intros Ha. simpl. by rewrite (starts_with_dashes a Ha), Ha. Qed.

Lemma parse_args_flag_value (a next : jsstring) (rest : list jsstring)
    (flags : gmap jsstring value) (pos : list jsstring) :
  starts_with (lit "-") a = true → is_flag_value next = true →
  parse_args (a :: next :: rest) flags pos
  = parse_args rest (<[flag_key a := VStr next]> flags) pos.
Proof.
  intros Ha Hn. unfold flag_key.
  cbn [parse_args]. rewrite Ha, Hn. by destruct (starts_with (lit "--") a).
Qed.

Lemma parse_args_flag_bare (a : jsstring) (rest : list jsstring)
    (flags : gmap jsstring value) (pos : list jsstring) :
  starts_with (lit "-") a = true →
  (∀ next rest', rest = next :: rest' → is_flag_value next = false) →
  parse_args (a :: rest) flags pos
  = parse_args rest (<[flag_key a := VBool true]> flags) pos.
Proof.
  intros Ha Hn. unfold flag_key. cbn [parse_args]. rewrite Ha.
  destruct rest as [|next rest'].
  - by destruct (starts_with (lit "--") a).
  - rewrite (Hn next rest' eq_refl).
    by destruct (starts_with (lit "--") a).
Qed.

(** Induction along the steps of the loop: a word, a flag with its value
    (two arguments at once), a bare flag. *)
Lemma parse_args_steps
    (Q : list jsstring → gmap jsstring value → list jsstring →
         gmap jsstring value * list jsstring → Prop) :
  (∀ flags pos, Q [] flags pos (flags, pos)) →
  (∀ a rest flags pos res,
     starts_with (lit "-") a = false →
     Q rest flags (pos ++ [a]) res → Q (a :: rest) flags pos res) →
  (∀ a next rest flags pos res,
     starts_with (lit "-") a = true → is_flag_value next = true →
     Q rest (<[flag_key a := VStr next]> flags) pos res →
     Q (a :: next :: rest) flags pos res) →
  (∀ a rest flags pos res,
     starts_with (lit "-") a = true →
     (∀ next rest', rest = next :: rest' → is_flag_value next = false) →
     Q rest (<[flag_key a := VBool true]> flags) pos res →
     Q (a :: rest) flags pos res) →
  ∀ args flags pos, Q args flags pos (parse_args args flags pos).
Proof.
  intros Hnil Hword Hvalue Hbare args.
  induction args as [args IH] using (induction_ltof1 _ (@length jsstring)).
  unfold ltof in IH. intros flags pos.
  destruct args as [|a rest]; [apply Hnil|].
  destruct (starts_with (lit "-") a) eqn:Ha.
  - destruct rest as [|next rest'].
    + rewrite parse_args_flag_bare by done.
      apply Hbare; [done|done|]. apply IH. simpl. lia.
    + destruct (is_flag_value next) eqn:Hn.
      * rewrite parse_args_flag_value by done.
        apply Hvalue; [done|done|]. apply IH. simpl. lia.
      * rewrite parse_args_flag_bare; [|done|by intros ? ? [= <- <-]].
        apply Hbare; [done|by intros ? ? [= <- <-]|]. apply IH. simpl. lia.
  - rewrite parse_args_word by done. apply Hword; [done|].
    apply IH. simpl. lia.
Qed.

(** X7: arguments without a leading dash are all positionals, in their order,
    and set no flag. *)
Theorem parse_args_words (args : list jsstring)
    (flags : gmap jsstring value) (pos : list jsstring) :
  Forall (λ a, starts_with (lit "-") a = false) args →
  parse_args args flags pos = (flags, pos ++ args).
Proof.
  intros Hargs. revert pos.
  induction Hargs as [|a rest Ha _ IH]; intros pos.
  - by rewrite app_nil_r.
  - rewrite parse_args_word, IH by done. by rewrite <- app_assoc.
Qed.

Lemma stored_truthy (v : value) : stored v → truthy v = true.
Proof. intros [->|(s & -> & Hs & _)]; [done|]. by destruct s. Qed.

Lemma is_flag_value_stored (next : jsstring) :
  is_flag_value next = true → stored (VStr next).
Proof.
  unfold is_flag_value. intros [Hn Hd%negb_true_iff]%andb_true_iff.
  right. exists next. split; [done|]. split; [|done]. by destruct next.
Qed.

Lemma parse_args_stored (args : list jsstring)
    (flags : gmap jsstring value) (pos : list jsstring) :
  map_Forall (λ _ v, stored v) flags →
  map_Forall (λ _ v, stored v) (parse_args args flags pos).1.
Proof.
  revert args flags pos.
  apply (parse_args_steps
           (λ _ flags _ res,
              map_Forall (λ _ v, stored v) flags →
              map_Forall (λ _ v, stored v) res.1)).
  - done.
  - intros a rest flags pos res _ IH. exact IH.
  - intros a next rest flags pos res _ Hn IH Hf. apply IH.
    apply map_Forall_insert_2; [|done]. by apply is_flag_value_stored.
  - intros a rest flags pos res _ _ IH Hf. apply IH.
    apply map_Forall_insert_2; [by left|done].
Qed.

(** X8: whatever the arguments, every flag holds [true] or a non-empty string
    without a leading dash: an empty value, or one that starts with a
    dash (a negative number), is never stored. *)
Theorem parse_args_values (args : list jsstring) (k : jsstring) (v : value) :
  (parse_args args ∅ []).1 !! k = Some v →
  v = VBool true
  ∨ ∃ s, v = VStr s ∧ s ≠ [] ∧ starts_with (lit "-") s = false.
Proof.
  intros Hk. apply (parse_args_stored args ∅ [] (map_Forall_empty _) k v Hk).
Qed.

Lemma parse_args_sublist (args : list jsstring)
    (flags : gmap jsstring value) (pos : list jsstring) :
  ∃ ws, (parse_args args flags pos).2 = pos ++ ws
        ∧ sublist ws args
        ∧ Forall (λ a, starts_with (lit "-") a = false) ws.
Proof.
  revert args flags pos.
  apply (parse_args_steps
           (λ args _ pos res,
              ∃ ws, res.2 = pos ++ ws ∧ sublist ws args
                    ∧ Forall (λ a, starts_with (lit "-") a = false) ws)).
  - intros flags pos. exists []. by rewrite app_nil_r.
  - intros a rest flags pos res Ha (ws & -> & Hsub & Hws).
    exists (a :: ws). rewrite <- app_assoc.
    split; [done|]. split; [by constructor|by constructor].
  - intros a next rest flags pos res _ _ (ws & -> & Hsub & Hws).
    exists ws. split; [done|]. split; [by do 2 constructor|done].
  - intros a rest flags pos res _ _ (ws & -> & Hsub & Hws).
    exists ws. split; [done|]. split; [by constructor|done].
Qed.

(** X9: the positionals are arguments in their order, none with a leading
    dash. *)
Theorem parse_args_positionals (args : list jsstring) :
  sublist (parse_args args ∅ []).2 args
  ∧ Forall (λ a, starts_with (lit "-") a = false) (parse_args args ∅ []).2.
Proof.
  destruct (parse_args_sublist args ∅ []) as (ws & -> & Hsub & Hws).
  by simpl.
Qed.

(** ** The one-shot run *)

Section OneShot.

Context `{CaseMapping} `{HostSort}.

Lemma cli_options_empty :
  cli_options ∅
  = {| n := VNum 1; sep := VStr (lit " "); mode := VStr (lit "echo");
       prefix := VStr []; suffix := VStr [] |}.
Proof. reflexivity. Qed.

(** X10: words alone are printed once, joined by single spaces: without a
    count flag the run asks for one copy. *)
Theorem cli_words (args : list jsstring) (g : rng) :
  Forall (λ a, starts_with (lit "-") a = false) args →
  fst (cli args g) = Some (join (lit " ") args).
Proof.
  intros Hargs. unfold cli. rewrite parse_args_words by done.
  assert (Hflag : ∀ k, flag ∅ k = VUndefined)
    by (intros k; unfold flag; by rewrite lookup_empty).
  rewrite !Hflag, cli_options_empty.
  change (truthy (or_else VUndefined VUndefined)) with false.
  change ([] ++ args) with args. cbv iota. unfold bind.
  set (text := match args with
               | [] => _
               | _ => VStr (join (lit " ") args)
               end).
  set (opts := {| n := VNum 1; sep := VStr (lit " ");
                  mode := VStr (lit "echo");
                  prefix := VStr []; suffix := VStr [] |}).
  pose proof (yap_replicate text opts g) as Hy.
  destruct (yap text opts g) as [result g']. simpl in *.
  rewrite Hy by done. rewrite app_nil_r. subst text. by destruct args.
Qed.

Lemma flag_stored (args : list jsstring) (k : string) :
  flag (parse_args args ∅ []).1 k = VUndefined
  ∨ stored (flag (parse_args args ∅ []).1 k).
Proof.
  unfold flag.
  destruct ((parse_args args ∅ []).1 !! lit k) as [v|] eqn:Hk; [|by left].
  right. simpl.
  exact (parse_args_stored args ∅ [] (map_Forall_empty _) (lit k) v Hk).
Qed.

(** X11: a flag [s] always starts the server, whatever value follows it: the
    one-shot run never reads it as the separator. *)
Theorem cli_s_starts_server (args : list jsstring) (v : value) (g : rng) :
  (parse_args args ∅ []).1 !! lit "s" = Some v →
  fst (cli args g) = None.
Proof.
  intros Hs. unfold cli.
  pose proof (flag_stored args "s") as Hst. unfold flag in Hst.
  rewrite Hs in Hst. simpl in Hst. destruct Hst as [->|Hst].
  - pose proof (parse_args_stored args ∅ [] (map_Forall_empty _)
                  (lit "s") VUndefined Hs) as [?|(? & ? & _)]; done.
  - destruct (parse_args args ∅ []) as [flags pos]. simpl in *.
    assert (Ht : truthy (or_else (flag flags "server") (flag flags "s"))
                 = true).
    { unfold or_else. destruct (truthy (flag flags "server")) eqn:E; [done|].
      unfold flag at 1. rewrite Hs. simpl. by apply stored_truthy. }
    by rewrite Ht.
Qed.

(** X12: the separator of the one-shot run is never empty; a [sep] flag
    without a usable value gives the separator "true". *)
Theorem cli_separator (args : list jsstring) :
  ToString (sep (destructure (cli_options (parse_args args ∅ []).1))) ≠ []
  ∧ ((parse_args args ∅ []).1 !! lit "sep" = Some (VBool true) →
     ToString (sep (destructure (cli_options (parse_args args ∅ []).1)))
     = lit "true").
Proof.
  split.
  - pose proof (flag_stored args "sep") as Hsep.
    pose proof (flag_stored args "s") as Hs.
    simpl. unfold or_else.
    destruct Hsep as [->|Hsep]; simpl.
    + destruct Hs as [->|Hs]; simpl; [done|].
      rewrite (stored_truthy _ Hs).
      destruct Hs as [->|(s & -> & Hne & _)]; [done|]. by destruct s.
    + rewrite (stored_truthy _ Hsep). simpl.
      destruct Hsep as [->|(s & -> & Hne & _)]; [done|]. by destruct s.
  - intros Hsep. simpl. unfold flag at 1 2. by rewrite Hsep.
Qed.

End OneShot.

Lemma number_to_string_flag_value (k : Z) :
  0 ≤ k → is_flag_value (number_to_string k) = true.
Proof.
  intros Hk. unfold number_to_string.
  destruct (Z.ltb_spec k 0) as [|_]; [lia|].
  destruct (uint_units_of_N (Z.to_N k)) as (u & r & -> & Hu).
  unfold is_flag_value, starts_with. simpl.
  apply negb_true_iff, bool_decide_eq_false. intros [= ->]. done.
Qed.

Ltac lit_ne :=
  let Hlit := fresh in intros Hlit; vm_compute in Hlit; discriminate Hlit.

Section CountFlag.

Context `{CaseMapping} `{HostSort}.

(** The text of the run when the flags give none: the words, joined. *)
Lemma cli_text (ws : list jsstring) :
  text_string
    match ws with
    | [] => or_else (or_else VUndefined VUndefined) (VStr [])
    | _ => VStr (join (lit " ") ws)
    end
  = join (lit " ") ws.
Proof. by destruct ws. Qed.

(** The run after the argument loop left the words [ws] and only the
    flag [n], holding [v]. *)
Lemma cli_with_count (ws : list jsstring) (v : value) (g : rng) :
  truthy v = true →
  fst (bind (yap match ws with
                 | [] => or_else (or_else VUndefined VUndefined) (VStr [])
                 | _ => VStr (join (lit " ") ws)
                 end
               {| n := v; sep := VStr (lit " "); mode := VStr (lit "echo");
                  prefix := VStr []; suffix := VStr [] |})
         (λ result, ret (Some result)) g)
  = Some (join (lit " ")
            (replicate (Z.to_nat (safeN v 3)) (join (lit " ") ws))).
Proof.
  intros Hv. unfold bind.
  set (text := match ws with [] => _ | _ => VStr (join (lit " ") ws) end).
  set (opts := {| n := v; sep := VStr (lit " "); mode := VStr (lit "echo");
                  prefix := VStr []; suffix := VStr [] |}).
  pose proof (yap_replicate text opts g) as Hy.
  destruct (yap text opts g) as [result g']. simpl in *.
  rewrite Hy by done. rewrite app_nil_r. subst text. rewrite cli_text.
  by destruct v.
Qed.

Lemma cli_only_count (ws : list jsstring) (v : value)
    (flags : gmap jsstring value) (g : rng) :
  flags = <[lit "n" := v]> ∅ → truthy v = true →
  (if truthy (or_else (flag flags "server") (flag flags "s")) then ret None
   else
     bind (yap match [] ++ ws with
               | [] => or_else (or_else (flag flags "msg") (flag flags "m"))
                         (VStr [])
               | _ => VStr (join (lit " ") ([] ++ ws))
               end (cli_options flags))
       (λ result, ret (Some result))) g
  = bind (yap match ws with
              | [] => or_else (or_else VUndefined VUndefined) (VStr [])
              | _ => VStr (join (lit " ") ws)
              end
            {| n := v; sep := VStr (lit " "); mode := VStr (lit "echo");
               prefix := VStr []; suffix := VStr [] |})
      (λ result, ret (Some result)) g.
Proof.
  intros Hflags Hv.
  assert (Hn : flag flags "n" = v)
    by (unfold flag; by rewrite Hflags, lookup_insert_eq).
  assert (Hother : ∀ key, lit key ≠ lit "n" → flag flags key = VUndefined).
  { intros key Hkey. unfold flag.
    by rewrite Hflags, lookup_insert_ne, lookup_empty. }
  assert (Hopts : cli_options flags
                  = {| n := v; sep := VStr (lit " ");
                       mode := VStr (lit "echo");
                       prefix := VStr []; suffix := VStr [] |}).
  { unfold cli_options. rewrite Hn, !Hother by lit_ne.
    assert (Hor : ∀ d, or_else v d = v)
      by (intros d; unfold or_else; by rewrite Hv).
    by rewrite !Hor. }
  rewrite !Hother, Hopts by lit_ne.
  change (truthy (or_else VUndefined VUndefined)) with false.
  by change ([] ++ ws) with ws.
Qed.

Lemma parse_args_app_words (ws rest : list jsstring)
    (flags : gmap jsstring value) (pos : list jsstring) :
  Forall (λ a, starts_with (lit "-") a = false) ws →
  parse_args (ws ++ rest) flags pos = parse_args rest flags (pos ++ ws).
Proof.
  intros Hws. revert pos. induction Hws as [|a r Ha _ IH]; intros pos.
  - by rewrite app_nil_r.
  - simpl app. rewrite parse_args_word, IH by done. by rewrite <- app_assoc.
Qed.

(** X13: words followed by [-n] and a count from 1 to 200 in decimal are
    printed that many times: the words joined by single spaces, and the
    copies joined by single spaces. *)
Theorem cli_count_flag (ws : list jsstring) (k : Z) (g : rng) :
  Forall (λ a, starts_with (lit "-") a = false) ws → 1 ≤ k ≤ 200 →
  fst (cli (ws ++ [lit "-n"; number_to_string k]) g)
  = Some (join (lit " ") (replicate (Z.to_nat k) (join (lit " ") ws))).
Proof.
  intros Hws Hk. unfold cli.
  rewrite parse_args_app_words by done.
  rewrite parse_args_flag_value
    by (done || (apply number_to_string_flag_value; lia)).
  change (flag_key (lit "-n")) with (lit "n").
  change (parse_args [] ?f ?p) with (f, p). cbv beta iota.
  assert (Htruthy : truthy (VStr (number_to_string k)) = true).
  { pose proof (number_to_string_flag_value k ltac:(lia)) as Hv.
    by apply andb_true_iff in Hv as [Hv _]. }
  rewrite (cli_only_count ws _ _ g eq_refl Htruthy), cli_with_count by done.
  assert (Hcount : safeN (VStr (number_to_string k)) 3 = k).
  { rewrite (safeN_clamps _ _ k).
    - destruct (Z.ltb_spec k 1), (Z.ltb_spec 200 k); lia.
    - unfold number_to_string. destruct (Z.ltb_spec k 0) as [|_]; [lia|].
      rewrite parseInt_digits. f_equal. lia.
    - lia. }
  by rewrite Hcount.
Qed.

(** X14: words followed by a bare [-n], the value missing, are printed three
    times: the flag holds [true], which is no number. *)
Theorem cli_bare_count (ws : list jsstring) (g : rng) :
  Forall (λ a, starts_with (lit "-") a = false) ws →
  fst (cli (ws ++ [lit "-n"]) g)
  = Some (join (lit " ") (replicate 3 (join (lit " ") ws))).
Proof.
  intros Hws. unfold cli.
  rewrite parse_args_app_words by done.
  rewrite parse_args_flag_bare by done.
  change (flag_key (lit "-n")) with (lit "n").
  change (parse_args [] ?f ?p) with (f, p). cbv beta iota.
  by rewrite (cli_only_count ws (VBool true) _ g eq_refl eq_refl),
       cli_with_count.
Qed.

End CountFlag.

(** ** The handler's count *)

Section HandlerCount.

Context `{CaseMapping} `{HostSort}.
Variable defaultAccount : object.

Lemma or_else_defined (a d : value) :
  d ≠ VUndefined → default_to d (or_else a d) = or_else a d.
Proof.
  intros Hd. unfold or_else. destruct (truthy a) eqn:Ha.
  - by destruct a.
  - by destruct d.
Qed.

Lemma request_mode (q : gmap jsstring qvalue) (s : jsstring) :
  s ≠ lit "echo" → s ≠ [] →
  is_str (mode (destructure (request_options q))) s
  = is_str (param q "mode") s.
Proof.
  intros Hs Hne.
  assert (Hecho : bool_decide (lit "echo" = s) = false)
    by (by apply bool_decide_eq_false_2).
  assert (Hnil : bool_decide ([] = s) = false)
    by (by apply bool_decide_eq_false_2).
  simpl. rewrite or_else_defined by done. unfold or_else.
  destruct (param q "mode") as [| |[]|z|[|u r]|l]; simpl; try done.
  - by destruct (z =? 0).
  - by rewrite Hnil.
Qed.

(** X15: for a request to "/" or "/yap" with mode echo, caps or an
    unknown mode, the payload is one piece repeated as many times as the
    handler's own count, the clamp with default 1 of [n], else [count],
    else 1, and joined by the separator; the piece, the separator and the
    count are read off the query.  So the default 3 of [yap] never shows,
    and for a count that is no number the payload is the piece, once. *)
Theorem http_payload_count (u : url) (g : rng) :
  pathname u = VStr (lit "/") ∨ pathname u = VStr (lit "/yap") →
  param (query u) "mode" ≠ VStr (lit "shuffle") →
  param (query u) "mode" ≠ VStr (lit "funny") →
  let q := query u in
  let count :=
    safeN (or_else (or_else (param q "n") (param q "count")) (VNum 1)) 1 in
  let msg :=
    ToString (or_else (or_else (param q "msg") (param q "message"))
                (VStr [])) in
  let piece :=
    ToString (or_else (param q "prefix") (VStr []))
    ++ (if is_str (param q "mode") (lit "caps") then toUpperCase msg
        else msg)
    ++ ToString (or_else (param q "suffix") (VStr [])) in
  fst (handle defaultAccount (Parsed u) g)
  = Fulfilled
      (success
         (join (ToString (or_else (param q "sep") (VStr (lit " "))))
            (replicate (Z.to_nat count) piece))
         simulated_send)
  ∧ 1 ≤ count ≤ 200
  ∧ (parseInt (or_else (or_else (param q "n") (param q "count")) (VNum 1))
     = None →
     fst (handle defaultAccount (Parsed u) g)
     = Fulfilled (success piece simulated_send)).
Proof.
  intros Hp Hs Hf q count msg piece.
  destruct (handle_served defaultAccount u g)
    as (payload & sendRes & Hr & -> & ->).
  { destruct Hp as [Hp|Hp]; rewrite (is_str_eq _ _ Hp);
      [done | apply orb_true_r]. }
  assert (Hpayload :
            fst (yap (request_text q) (request_options q) g)
            = join (ToString (or_else (param q "sep") (VStr (lit " "))))
                (replicate (Z.to_nat count) piece)).
  { rewrite yap_replicate.
    - rewrite request_count, safeN_idem, (request_mode q (lit "caps"))
        by done.
      simpl. rewrite !or_else_defined by done.
      unfold text_string, request_text. by rewrite or_else_defined.
    - simpl. intros Hm. apply Hs. unfold or_else in Hm.
      destruct (truthy (param q "mode")); [done|discriminate Hm].
    - simpl. intros Hm. apply Hf. unfold or_else in Hm.
      destruct (truthy (param q "mode")); [done|discriminate Hm]. }
  fold q in Hr. rewrite Hr, Hpayload.
  split; [done|]. split; [apply safeN_range|].
  intros Hnan. subst count. by rewrite safeN_default.
Qed.

End HandlerCount.

(** ** The merged configuration *)

Lemma get_set_eq (k : jsstring) (v : json) (o : object) :
  get k (set k v o) = Some v.
Proof.
  induction o as [|[k' v'] r IH]; simpl.
  - by rewrite decide_True.
  - destruct (decide (k = k')) as [->|Hne]; simpl.
    + by rewrite decide_True.
    + by rewrite decide_False.
Qed.

Lemma get_set_ne (k k' : jsstring) (v : json) (o : object) :
  k ≠ k' → get k (set k' v o) = get k o.
Proof.
  intros Hne. induction o as [|[k'' v''] r IH]; simpl.
  - by rewrite decide_False.
  - destruct (decide (k' = k'')) as [->|Hne']; simpl.
    + by rewrite !decide_False.
    + destruct (decide (k = k'')); [done|]. exact IH.
Qed.

Lemma get_absent (k : jsstring) (o : object) :
  k ∉ keys o → get k o = None.
Proof.
  induction o as [|[k' v'] r IH]; simpl; [done|].
  intros Hk. apply not_elem_of_cons in Hk as [Hne Hk].
  rewrite decide_False by done. by apply IH.
Qed.

Lemma get_spread (k : jsstring) (src : object) :
  NoDup (keys src) →
  ∀ target,
    get k (spread target src)
    = match get k src with
      | Some v => Some v
      | None => get k target
      end.
Proof.
  unfold spread. induction src as [|[k' v'] r IH]; intros Hnd target;
    simpl; [done|].
  apply NoDup_cons in Hnd as [Hk Hnd]. rewrite IH by done.
  destruct (decide (k = k')) as [->|Hne].
  - by rewrite (get_absent k' r), get_set_eq.
  - rewrite get_set_ne by done. done.
Qed.

(** X16: a successful start returns the account configuration overridden by
    the options of the call: a key of the options has the option's value,
    any other key has the account's value, if any. *)
Theorem startBot_config (acct opts : object) :
  NoDup (keys acct) → NoDup (keys opts) →
  ∃ config : object,
    startBot acct opts false = (started config, true)
    ∧ ∀ k, get k config
           = match get k opts with
             | Some v => Some v
             | None => get k acct
             end.
Proof.
  intros Ha Ho. exists (spread (spread [] acct) opts). split; [done|].
  intros k. rewrite get_spread by done. rewrite get_spread by done.
  by destruct (get k acct).
Qed.

(** ** Runs *)

Lemma step_flag (acct : object) (o : op) (isRunning : bool) :
  snd (step acct o isRunning)
  = match o with Start _ => true | Stop => false end.
Proof. by destruct o, isRunning. Qed.

(** X17: after any run the flag tells the kind of the last operation, whether
    it succeeded or not: set after a start, clear after a stop. *)
Theorem run_final_flag (acct : object) (ops : list op) (isRunning : bool) :
  snd (run acct ops isRunning)
  = match last ops with
    | Some (Start _) => true
    | Some Stop => false
    | None => isRunning
    end.
Proof.
  revert isRunning. induction ops as [|o r IH]; intros isRunning; [done|].
  simpl. pose proof (step_flag acct o isRunning) as Hs.
  destruct (step acct o isRunning) as [res s]. simpl in Hs.
  specialize (IH s). destruct (run acct r s) as [rest s']. simpl in *.
  rewrite IH. destruct r as [|o' r']; [by subst|].
  rewrite last_cons_cons.
  destruct (last (o' :: r')) as [[]|] eqn:E; [done|done|].
  by apply last_None in E.
Qed.

Lemma step_succeeded (acct : object) (o : op) (isRunning : bool) :
  succeeded (fst (step acct o isRunning))
  = negb (eqb (snd (step acct o isRunning)) isRunning).
Proof. by destruct o, isRunning. Qed.

(** X18: in every run the successful starts and the successful stops balance:
    their difference is the change of the flag, so from a stopped bot the
    successes alternate, a start first. *)
Theorem run_balance (acct : object) (ops : list op) (isRunning : bool) :
  tally ops (fst (run acct ops isRunning))
  = Z.b2z (snd (run acct ops isRunning)) - Z.b2z isRunning.
Proof.
  revert isRunning. induction ops as [|o r IH]; intros isRunning.
  - simpl. lia.
  - simpl. pose proof (step_succeeded acct o isRunning) as Hok.
    pose proof (step_flag acct o isRunning) as Hs.
    destruct (step acct o isRunning) as [res s]. simpl in Hok, Hs.
    specialize (IH s). destruct (run acct r s) as [rest s']. simpl in *.
    rewrite IH, Hok, Hs. by destruct o, isRunning, s'.
Qed.

(** ** Instances of the further properties *)

Lemma http_payload_count_witness :
  (pathname many_a_url = VStr (lit "/")
   ∨ pathname many_a_url = VStr (lit "/yap"))
  ∧ parseInt (or_else (or_else (param (query many_a_url) "n")
                         (param (query many_a_url) "count")) (VNum 1))
    = None
  ∧ fst (@handle latin1_case v8_sort [] (Parsed many_a_url) all_lt)
    = Fulfilled (success (lit "a") simulated_send).
Proof.
  assert (Hp : pathname many_a_url = VStr (lit "/")
               ∨ pathname many_a_url = VStr (lit "/yap"))
    by (left; reflexivity).
  assert (Hs : param (query many_a_url) "mode" ≠ VStr (lit "shuffle"))
    by (vm_compute; discriminate).
  assert (Hf : param (query many_a_url) "mode" ≠ VStr (lit "funny"))
    by (vm_compute; discriminate).
  assert (Hnan : parseInt (or_else (or_else (param (query many_a_url) "n")
                                      (param (query many_a_url) "count"))
                             (VNum 1)) = None)
    by (vm_compute; reflexivity).
  split; [exact Hp|]. split; [exact Hnan|].
  destruct (@http_payload_count latin1_case v8_sort [] many_a_url all_lt
              Hp Hs Hf) as (_ & _ & Honce).
  rewrite (Honce Hnan). vm_compute. reflexivity.
Defined.


Lemma yap_copies_witness :
  mode caps_twice ≠ VStr (lit "shuffle")
  ∧ ∃ piece : jsstring,
      piece = lit "HI"
      ∧ fst (@yap latin1_case v8_sort (VStr (lit "hi")) caps_twice all_lt)
        = join (lit "-") (replicate 2 piece).
Proof.
  assert (H1 : mode caps_twice ≠ VStr (lit "shuffle")) by discriminate.
  assert (H2 : mode caps_twice ≠ VStr (lit "funny")) by discriminate.
  split; [exact H1|].
  destruct (@yap_copies latin1_case v8_sort (VStr (lit "hi")) caps_twice all_lt
              H1 H2) as (piece & Hpiece & Hout).
  exists piece. split; [exact Hpiece | exact Hout].
Defined.

Lemma yap_output_length_witness :
  mode odd_mode ≠ VStr (lit "caps")
  ∧ Z.of_nat (length (fst (@yap latin1_case v8_sort (VStr (lit "abc"))
                             odd_mode all_gt))) = 2 * (1 + 3 + 0) + 1 * 1.
Proof.
  assert (H1 : mode odd_mode ≠ VStr (lit "caps")) by discriminate.
  assert (H2 : mode odd_mode ≠ VStr (lit "shuffle")) by discriminate.
  assert (H3 : mode odd_mode ≠ VStr (lit "funny")) by discriminate.
  split; [exact H1|].
  rewrite (@yap_output_length latin1_case v8_sort (VStr (lit "abc")) odd_mode
             all_gt H1 H2 H3).
  reflexivity.
Defined.

Lemma funny_period_two_witness :
  mode funny_default = VStr (lit "funny")
  ∧ ∃ ps : list jsstring,
      fst (@yap latin1_case v8_sort (VStr (lit "ab")) funny_default all_lt)
      = join (lit " ") ps
      ∧ length ps = 3%nat
      ∧ ps !! 2%nat = ps !! 0%nat.
Proof.
  split; [reflexivity|].
  destruct (@funny_period_two latin1_case v8_sort (VStr (lit "ab")) funny_default
              all_lt eq_refl) as (ps & Hout & Hlen & Hper).
  exists ps. split; [exact Hout|].
  assert (H3 : length ps = 3%nat).
  { apply Nat2Z.inj. rewrite Hlen. reflexivity. }
  split; [exact H3|].
  destruct ps as [|p0 [|p1 [|p2 r]]]; try discriminate H3.
  symmetry. exact (Hper 0%nat p2 eq_refl).
Defined.


Lemma two_words :
  Forall (λ a, starts_with (lit "-") a = false) [lit "hello"; lit "there"].
Proof. repeat constructor. Defined.

Lemma parse_args_words_witness :
  Forall (λ a, starts_with (lit "-") a = false) [lit "hello"; lit "there"]
  ∧ parse_args [lit "hello"; lit "there"] ∅ []
    = (∅, [lit "hello"; lit "there"]).
Proof.
  split; [exact two_words|].
  exact (parse_args_words [lit "hello"; lit "there"] ∅ [] two_words).
Defined.

Lemma parse_args_values_witness :
  (parse_args [lit "--mode"; lit "caps"; lit "-n"; lit "-5"] ∅ []).1
    !! lit "n" = Some (VBool true)
  ∧ (VBool true = VBool true
     ∨ ∃ s, VBool true = VStr s ∧ s ≠ []
            ∧ starts_with (lit "-") s = false).
Proof.
  assert (Hn : (parse_args [lit "--mode"; lit "caps"; lit "-n"; lit "-5"]
                  ∅ []).1 !! lit "n" = Some (VBool true))
    by (vm_compute; reflexivity).
  split; [exact Hn|].
  exact (parse_args_values _ _ _ Hn).
Defined.

Lemma cli_words_witness :
  Forall (λ a, starts_with (lit "-") a = false) [lit "hello"; lit "there"]
  ∧ fst (@cli latin1_case v8_sort [lit "hello"; lit "there"] all_lt)
    = Some (lit "hello there").
Proof.
  split; [exact two_words|].
  exact (@cli_words latin1_case v8_sort [lit "hello"; lit "there"] all_lt two_words).
Defined.

Lemma cli_s_starts_server_witness :
  (parse_args [lit "a"; lit "-s"; lit ","] ∅ []).1 !! lit "s"
  = Some (VStr (lit ","))
  ∧ fst (@cli latin1_case v8_sort [lit "a"; lit "-s"; lit ","] all_lt) = None.
Proof.
  assert (Hs : (parse_args [lit "a"; lit "-s"; lit ","] ∅ []).1 !! lit "s"
               = Some (VStr (lit ","))) by (vm_compute; reflexivity).
  split; [exact Hs|].
  exact (@cli_s_starts_server latin1_case v8_sort _ _ all_lt Hs).
Defined.

Lemma cli_count_flag_witness :
  Forall (λ a, starts_with (lit "-") a = false) [lit "hello"; lit "there"]
  ∧ 1 ≤ 2 ≤ 200
  ∧ fst (@cli latin1_case v8_sort [lit "hello"; lit "there"; lit "-n"; lit "2"]
           all_lt)
    = Some (lit "hello there hello there").
Proof.
  assert (Hk : 1 ≤ 2 ≤ 200) by lia.
  split; [exact two_words|]. split; [exact Hk|].
  exact (@cli_count_flag latin1_case v8_sort [lit "hello"; lit "there"] 2 all_lt
           two_words Hk).
Defined.

Lemma cli_bare_count_witness :
  Forall (λ a, starts_with (lit "-") a = false) [lit "hello"; lit "there"]
  ∧ fst (@cli latin1_case v8_sort [lit "hello"; lit "there"; lit "-n"] all_lt)
    = Some (lit "hello there hello there hello there").
Proof.
  split; [exact two_words|].
  exact (@cli_bare_count latin1_case v8_sort [lit "hello"; lit "there"] all_lt
           two_words).
Defined.

Lemma startBot_config_witness :
  NoDup (keys sample_account) ∧ NoDup (keys sample_opts)
  ∧ ∃ config : object,
      startBot sample_account sample_opts false = (started config, true)
      ∧ get (lit "rate") config = Some (JNum 9)
      ∧ get (lit "name") config = Some (JStr (lit "bot")).
Proof.
  assert (Ha : NoDup (keys sample_account)) by compute_done.
  assert (Ho : NoDup (keys sample_opts)) by compute_done.
  split; [exact Ha|]. split; [exact Ho|].
  destruct (startBot_config sample_account sample_opts Ha Ho)
    as (config & Hstart & Hget).
  exists config. split; [exact Hstart|].
  split; [exact (Hget (lit "rate")) | exact (Hget (lit "name"))].
Defined.

Lemma cli_separator_witness :
  (parse_args [lit "x"; lit "--sep"] ∅ []).1 !! lit "sep"
  = Some (VBool true)
  ∧ ToString (sep (destructure
                     (cli_options (parse_args [lit "x"; lit "--sep"] ∅ []).1)))
    = lit "true".
Proof.
  assert (Hsep : (parse_args [lit "x"; lit "--sep"] ∅ []).1 !! lit "sep"
                 = Some (VBool true)) by (vm_compute; reflexivity).
  split; [exact Hsep|].
  destruct (@cli_separator [lit "x"; lit "--sep"]) as [_ Htrue].
  exact (Htrue Hsep).
Defined.
